(** * uring_file: asynchronous file I/O over an io_uring ring

    A shallow embedding of [uring_file.py]: the ring handle [Uring]
    (correlation table, lazy setup, completion dispatcher) and the
    [File] handle built on it (offset cursor, clamped reads, line
    splitting), with the kernel ring, the scheduler's futures and the
    file system as explicit state. *)

From Stdlib Require Import ZArith Lia.
From Stdlib.Strings Require Import Byte String.
From stdpp Require Import base option list gmap strings.

Local Open Scope Z_scope.

(** ** Data *)

(** [class RequestType(str, enum.Enum)] *)
Inductive RequestType := OPEN | CLOSE | READ | WRITE.

(** Python [bytes] and [bytearray] values. *)
Abbreviation bytes := (list byte).

(** Exceptions the modelled code can raise.  [OSError n] carries the
    positive errno, as [liburing.trap_error] builds it from the negated
    result code. *)
Inductive exn :=
  | OSError (errno : Z)
  | KeyError (key : Z)
  | IndexError
  | InvalidStateError
  | AssertionError
  | FileNotFoundError
  | ValueError
  | TypeError.

(** Values a future is resolved with by [future.set_result]. *)
Inductive value :=
  | VNone
  | VInt (n : Z)
  | VBytes (b : bytes).

(** An [asyncio.Future]: pending, or holding its result.  The code never
    calls [set_exception], so there is no failed state. *)
Inductive fstate :=
  | Pending
  | Done (v : value).

(** A filled submission entry, as left by the [io_uring_prep_*] call and
    the assignment to [sqe.user_data].  The destination buffer of a read
    is the [bytearray] kept in the correlation entry; the entry records
    its length. *)
Inductive sqe_op :=
  | PrepOpenat (dir_fd : Z) (path : string) (flags mode : Z)
  | PrepClose (fd : Z)
  | PrepReadv (fd : Z) (len : nat) (offset : Z)
  | PrepWritev (fd : Z) (data : bytes) (offset : Z).

Record sqe := { sq_op : sqe_op; sq_user_data : Z }.

(** A completion entry: [cqe.user_data] and [cqe.res]. *)
Record cqe := { user_data : Z; res : Z }.

(** State of the kernel ring resource behind [self.ring]. *)
Inductive ring_status := RingFresh | RingLive | RingExited.

(** A correlation entry [request_type, future, *args]: the future is a
    reference into the heap of futures, the auxiliary data are the path
    bytes of an open or the destination buffer of a read. *)
Record entry := { e_type : RequestType; e_future : nat; e_args : list bytes }.

(** [class Uring], together with the collaborators it drives: the heap of
    futures it creates, the kernel side of the ring (entries handed over
    by [io_uring_submit] and not yet completed, and the completion queue),
    and counters of the calls made on the ring resource. *)
Record Uring := {
  store : gmap Z entry;
  queue_size : Z;
  _setup_done : bool;
  heap : list fstate;
  inflight : list sqe;
  cq : list cqe;
  ring : ring_status;
  reader_installed : bool;
  atexit_hooks : nat;
  queue_inits : nat;
  queue_exits : nat;
  submits : nat;
}.

(** [Uring.__init__(loop=None, queue_size=32)] *)
Definition Uring_init (qs : Z) : Uring :=
  {| store := ∅; queue_size := qs; _setup_done := false; heap := [];
     inflight := []; cq := []; ring := RingFresh; reader_installed := false;
     atexit_hooks := 0; queue_inits := 0; queue_exits := 0; submits := 0 |}.

Definition set_store (m : gmap Z entry) (u : Uring) : Uring :=
  {| store := m; queue_size := queue_size u; _setup_done := _setup_done u;
     heap := heap u; inflight := inflight u; cq := cq u; ring := ring u;
     reader_installed := reader_installed u; atexit_hooks := atexit_hooks u;
     queue_inits := queue_inits u; queue_exits := queue_exits u;
     submits := submits u |}.

Definition set_heap (h : list fstate) (u : Uring) : Uring :=
  {| store := store u; queue_size := queue_size u; _setup_done := _setup_done u;
     heap := h; inflight := inflight u; cq := cq u; ring := ring u;
     reader_installed := reader_installed u; atexit_hooks := atexit_hooks u;
     queue_inits := queue_inits u; queue_exits := queue_exits u;
     submits := submits u |}.

Definition set_inflight (l : list sqe) (u : Uring) : Uring :=
  {| store := store u; queue_size := queue_size u; _setup_done := _setup_done u;
     heap := heap u; inflight := l; cq := cq u; ring := ring u;
     reader_installed := reader_installed u; atexit_hooks := atexit_hooks u;
     queue_inits := queue_inits u; queue_exits := queue_exits u;
     submits := submits u |}.

Definition set_cq (l : list cqe) (u : Uring) : Uring :=
  {| store := store u; queue_size := queue_size u; _setup_done := _setup_done u;
     heap := heap u; inflight := inflight u; cq := l; ring := ring u;
     reader_installed := reader_installed u; atexit_hooks := atexit_hooks u;
     queue_inits := queue_inits u; queue_exits := queue_exits u;
     submits := submits u |}.

(** ** Results of a call *)

(** A call on the ring handle returns a value and the new state, or
    raises with the state reached when the exception left the call. *)
Inductive result (A : Type) :=
  | Ret (a : A) (u : Uring)
  | Exc (e : exn) (u : Uring).
Arguments Ret {A} a u.
Arguments Exc {A} e u.

Definition rbind {A B} (m : result A) (k : A → Uring → result B) : result B :=
  match m with
  | Ret a u => k a u
  | Exc e u => Exc e u
  end.

(** ** liburing and asyncio primitives *)

(** [liburing.trap_error(no)]: a negative result code raises [OSError]
    with the negated code as errno; any other code is returned. *)
Definition trap_error (no : Z) (u : Uring) : result Z :=
  if no <? 0 then Exc (OSError (- no)) u else Ret no u.

(** [future.set_result(v)]: resolves a pending future; a future that
    already has a result raises [InvalidStateError]. *)
Definition set_result (fut : nat) (v : value) (u : Uring) : result unit :=
  match heap u !! fut with
  | Some Pending => Ret tt (set_heap (<[fut := Done v]> (heap u)) u)
  | _ => Exc InvalidStateError u
  end.

(** [liburing.io_uring_cqe_seen(ring, cqe)]: the head completion is
    consumed. *)
Definition io_uring_cqe_seen (u : Uring) : Uring := set_cq (tail (cq u)) u.

(** ** Uring *)

(** [Uring.setup] *)
Definition setup (u : Uring) : Uring :=
  {| store := store u; queue_size := queue_size u; _setup_done := true;
     heap := heap u; inflight := inflight u; cq := cq u; ring := RingLive;
     reader_installed := true; atexit_hooks := S (atexit_hooks u);
     queue_inits := S (queue_inits u); queue_exits := queue_exits u;
     submits := submits u |}.

(** [Uring._get_sqe]: lazy setup, then a free submission entry.  Every
    entry is handed to the kernel by the [io_uring_submit] of the same
    call, so the submission queue is empty whenever an entry is asked
    for. *)
Definition _get_sqe (u : Uring) : Uring :=
  if _setup_done u then u else setup u.

(** [Uring._submit(request_type, sqe, *args)].  [fid] is [id(future)],
    the identity CPython gives the future just created; the returned
    token is the reference to that future. *)
Definition _submit (request_type : RequestType) (op : sqe_op)
    (args : list bytes) (fid : Z) (u : Uring) : nat * Uring :=
  let future := length (heap u) in
  (future,
   {| store := <[fid := {| e_type := request_type; e_future := future;
                            e_args := args |}]> (store u);
      queue_size := queue_size u; _setup_done := _setup_done u;
      heap := heap u ++ [Pending];
      inflight := inflight u ++ [{| sq_op := op; sq_user_data := fid |}];
      cq := cq u; ring := ring u; reader_installed := reader_installed u;
      atexit_hooks := atexit_hooks u; queue_inits := queue_inits u;
      queue_exits := queue_exits u; submits := S (submits u) |}).

(** [Uring.submit_open_entry(fpath, flags, mode, dir_fd)].  Paths are
    absolute and normalised, so [os.path.abspath] leaves them as they
    are. *)
Definition submit_open_entry (fpath : string) (flags mode dir_fd : Z)
    (fid : Z) (u : Uring) : nat * Uring :=
  let u := _get_sqe u in
  _submit OPEN (PrepOpenat dir_fd fpath flags mode)
    [list_byte_of_string fpath] fid u.

(** [Uring.submit_close_entry(fd)] *)
Definition submit_close_entry (fd : Z) (fid : Z) (u : Uring) : nat * Uring :=
  let u := _get_sqe u in
  _submit CLOSE (PrepClose fd) [] fid u.

(** [Uring.submit_read_entry(fd, size, offset)]: [bytearray(size)] is
    [size] zero bytes, and raises [ValueError] for a negative size. *)
Definition submit_read_entry (fd size offset : Z) (fid : Z) (u : Uring)
    : result nat :=
  let u := _get_sqe u in
  if size <? 0 then Exc ValueError u
  else
    let array := repeat x00 (Z.to_nat size) in
    let '(fut, u) :=
      _submit READ (PrepReadv fd (length array) offset) [array] fid u in
    Ret fut u.

(** [Uring.submit_write_entry(fd, data, offset)] *)
Definition submit_write_entry (fd : Z) (data : bytes) (offset : Z)
    (fid : Z) (u : Uring) : nat * Uring :=
  let u := _get_sqe u in
  _submit WRITE (PrepWritev fd data offset) [] fid u.

(** The body of the [while True] loop of [Uring.eventfd_callback] for the
    completion [c] at the head of the queue.  [trap_error] comes before
    the store is looked at.  The closing [else: raise RuntimeError] has
    no counterpart: the four members of [RequestType] are all there
    is. *)
Definition dispatch (c : cqe) (u : Uring) : result unit :=
  rbind (trap_error (res c) u) (fun result u =>
  match store u !! user_data c with
  | None => Exc (KeyError (user_data c)) u
  | Some e =>
      rbind
        (match e_type e with
         | OPEN => set_result (e_future e) (VInt result) u
         | CLOSE => set_result (e_future e) VNone u
         | READ =>
             match e_args e with
             | a :: _ => set_result (e_future e) (VBytes a) u
             | [] => Exc IndexError u
             end
         | WRITE => set_result (e_future e) VNone u
         end)
        (fun _ u =>
           let u := set_store (delete (user_data c) (store u)) u in
           Ret tt (io_uring_cqe_seen u))
  end).

(** [Uring.eventfd_callback], after [eventfd_read] has reset the
    counter of the eventfd: [io_uring_peek_cqe] yields the head of the
    completion queue and raises [BlockingIOError], which ends the loop,
    when the queue is empty.  The recursion follows the queue, which
    [io_uring_cqe_seen] shortens by its head. *)
Fixpoint drain (q : list cqe) (u : Uring) : result unit :=
  match q with
  | [] => Ret tt u
  | c :: q' => rbind (dispatch c u) (fun _ u => drain q' u)
  end.

Definition eventfd_callback (u : Uring) : result unit := drain (cq u) u.

(** [Uring.cleanup]: [io_uring_unregister_eventfd] is a system call on
    the ring's descriptor and raises [OSError] unless the ring is live:
    EBADF (9) once [io_uring_queue_exit] has closed the descriptor,
    EOPNOTSUPP (95) on the zeroed structure of a ring never initialised,
    whose descriptor 0 is no ring.  Nothing in [cleanup] looks at
    [_setup_done]. *)
Definition cleanup (u : Uring) : result unit :=
  match ring u with
  | RingLive =>
      Ret tt
        {| store := store u; queue_size := queue_size u; _setup_done := false;
           heap := heap u; inflight := inflight u; cq := cq u;
           ring := RingExited; reader_installed := false;
           atexit_hooks := atexit_hooks u; queue_inits := queue_inits u;
           queue_exits := S (queue_exits u); submits := submits u |}
  | RingExited => Exc (OSError 9) u
  | RingFresh => Exc (OSError 95) u
  end.

(** ** The kernel side of the ring *)

(** The kernel stores [payload] at the start of a destination buffer and
    never past its end. *)
Definition write_buffer (payload array : bytes) : bytes :=
  take (length array) payload ++ drop (length payload) array.

(** The destination buffer of a read is the [bytearray] object that the
    correlation entry under the entry's [user_data] holds as [args[0]];
    the kernel writes through the [iovec] into that same object. *)
Definition fill_buffer (payload : bytes) (e : entry) : entry :=
  match e_args e with
  | a :: rest =>
      {| e_type := e_type e; e_future := e_future e;
         e_args := write_buffer payload a :: rest |}
  | [] => e
  end.

Fixpoint remove_sqe (k : Z) (l : list sqe) : list sqe :=
  match l with
  | [] => []
  | s :: l' => if decide (sq_user_data s = k) then l' else s :: remove_sqe k l'
  end.

(** The kernel completes the in-flight entry [s] with result code [r];
    for a read it has first written [payload] into the buffer.  The
    completion echoes the entry's [user_data]. *)
Definition kernel_complete (s : sqe) (r : Z) (payload : bytes) (u : Uring)
    : Uring :=
  let m :=
    match sq_op s with
    | PrepReadv _ _ _ => alter (fill_buffer payload) (sq_user_data s) (store u)
    | _ => store u
    end in
  set_cq (cq u ++ [{| user_data := sq_user_data s; res := r |}])
    (set_inflight (remove_sqe (sq_user_data s) (inflight u))
       (set_store m u)).

(** ** Files, descriptors and the event loop *)

(** Flag values of [os] on Linux. *)
Definition O_RDONLY : Z := 0.
Definition O_WRONLY : Z := 1.
Definition O_CREAT : Z := 64.
Definition O_TRUNC : Z := 512.
Definition O_ACCMODE : Z := 3.

(** The process: the module's [_DEFAULT_URING], the regular files by
    path, and the table of open descriptors with the path and flags each
    was opened with.  Files are never removed. *)
Record World := {
  uring : Uring;
  fs : gmap string bytes;
  fdtable : gmap Z (string * Z);
}.

Definition set_uring (u : Uring) (w : World) : World :=
  {| uring := u; fs := fs w; fdtable := fdtable w |}.

(** The lowest descriptor number from 3 up that is not open. *)
Fixpoint free_fd_from (n : nat) (fd : Z) (t : gmap Z (string * Z)) : Z :=
  match n with
  | O => fd
  | S n' =>
      match t !! fd with
      | None => fd
      | Some _ => free_fd_from n' (fd + 1) t
      end
  end.

Definition free_fd (t : gmap Z (string * Z)) : Z :=
  free_fd_from (size t) 3 t.

(** [pwrite]: the bytes of [data] replace those of [c] from [off] on; a
    write past the end leaves a hole of zero bytes. *)
Definition write_at (off : nat) (data c : bytes) : bytes :=
  take off c ++ repeat x00 (off - length c) ++ data
    ++ drop (off + length data) c.

(** What the kernel does for one submission entry on regular files: the
    result code of the completion, the bytes a read transfers, and the
    files and descriptors afterwards.  Failures are the negated errno:
    ENOENT 2, EBADF 9, EINVAL 22.  Only the access mode, [O_CREAT] and
    [O_TRUNC] are interpreted among the flags; [mode] and [dir_fd] play
    no part for absolute paths. *)
Definition kernel_exec (op : sqe_op) (files : gmap string bytes)
    (t : gmap Z (string * Z))
    : Z * bytes * gmap string bytes * gmap Z (string * Z) :=
  match op with
  | PrepOpenat _ path flags _ =>
      let fd := free_fd t in
      match files !! path with
      | Some _ =>
          let files' :=
            if (Z.land flags O_TRUNC =? 0) || (Z.land flags O_ACCMODE =? O_RDONLY)
            then files else <[path := []]> files in
          (fd, [], files', <[fd := (path, flags)]> t)
      | None =>
          if Z.land flags O_CREAT =? 0 then (-2, [], files, t)
          else (fd, [], <[path := []]> files, <[fd := (path, flags)]> t)
      end
  | PrepClose fd =>
      match t !! fd with
      | Some _ => (0, [], files, delete fd t)
      | None => (-9, [], files, t)
      end
  | PrepReadv fd len off =>
      match t !! fd with
      | Some (path, flags) =>
          if Z.land flags O_ACCMODE =? O_WRONLY then (-9, [], files, t)
          else if off <? 0 then (-22, [], files, t)
          else
            match files !! path with
            | Some c =>
                let data := take len (drop (Z.to_nat off) c) in
                (Z.of_nat (length data), data, files, t)
            | None => (-9, [], files, t)
            end
      | None => (-9, [], files, t)
      end
  | PrepWritev fd data off =>
      match t !! fd with
      | Some (path, flags) =>
          if Z.land flags O_ACCMODE =? O_RDONLY then (-9, [], files, t)
          else if off <? 0 then (-22, [], files, t)
          else
            match files !! path with
            | Some c =>
                (Z.of_nat (length data), [],
                 <[path := write_at (Z.to_nat off) data c]> files, t)
            | None => (-9, [], files, t)
            end
      | None => (-9, [], files, t)
      end
  end.

(** The kernel works off the entries it was handed, in submission
    order. *)
Fixpoint kernel_run (l : list sqe) (w : World) : World :=
  match l with
  | [] => w
  | s :: l' =>
      let '(r, payload, files, t) := kernel_exec (sq_op s) (fs w) (fdtable w) in
      kernel_run l'
        {| uring := kernel_complete s r payload (uring w);
           fs := files; fdtable := t |}
  end.

(** One turn of the event loop while the task is suspended: the kernel
    completes what is in flight, which signals the eventfd, and the loop
    runs the reader callback.  An exception leaving the callback goes to
    the loop's exception handler, not to any task. *)
Definition wake (w : World) : World :=
  match inflight (uring w) with
  | [] => w
  | l =>
      let w := kernel_run l w in
      match eventfd_callback (uring w) with
      | Ret _ u => set_uring u w
      | Exc _ u => set_uring u w
      end
  end.

(** How a coroutine ends: with a value, with an exception, or never,
    when the future it awaits is not resolved by the time nothing is in
    flight any more.  [OutOfFuel] belongs to the bounded unrolling of
    loops, not to the program. *)
Inductive outcome (A : Type) :=
  | Ok (a : A) (w : World)
  | Raise (e : exn) (w : World)
  | Hang (w : World)
  | OutOfFuel.
Arguments Ok {A} a w.
Arguments Raise {A} e w.
Arguments Hang {A} w.
Arguments OutOfFuel {A}.

Definition obind {A B} (m : outcome A) (k : A → World → outcome B)
    : outcome B :=
  match m with
  | Ok a w => k a w
  | Raise e w => Raise e w
  | Hang w => Hang w
  | OutOfFuel => OutOfFuel
  end.

(** [await future] *)
Definition await (fut : nat) (w : World) : outcome value :=
  match heap (uring w) !! fut with
  | Some (Done v) => Ok v w
  | _ =>
      let w := wake w in
      match heap (uring w) !! fut with
      | Some (Done v) => Ok v w
      | _ => Hang w
      end
  end.

(** [id(future)] for a future created now: CPython gives an identity no
    live object has, and every future referenced from the store is live. *)
Definition new_id (u : Uring) : Z := fresh (dom (store u)).

(** ** File *)

(** [class File]: [fpath], [_fd] ([None] when closed) and [_offset]; its
    [_uring] is the world's ring handle. *)
Record File := { fpath : string; _fd : option Z; _offset : Z }.

(** [File.__init__(fpath)] *)
Definition File_init (path : string) : File :=
  {| fpath := path; _fd := None; _offset := 0 |}.

Definition set_fd (fd : option Z) (f : File) : File :=
  {| fpath := fpath f; _fd := fd; _offset := _offset f |}.

Definition set_offset (o : Z) (f : File) : File :=
  {| fpath := fpath f; _fd := _fd f; _offset := o |}.

(** [File.open(flags, mode, dir_fd)], awaited: the assertion of the
    call, then [_open_wrapper]. *)
Definition File_open (flags mode dir_fd : Z) (f : File) (w : World)
    : outcome File :=
  match _fd f with
  | Some _ => Raise AssertionError w
  | None =>
      let '(fut, u) :=
        submit_open_entry (fpath f) flags mode dir_fd
          (new_id (uring w)) (uring w) in
      obind (await fut (set_uring u w)) (fun v w =>
        match v with
        | VInt fd => Ok (set_fd (Some fd) f) w
        | _ => Raise TypeError w
        end)
  end.

(** [File.close] *)
Definition close (f : File) (w : World) : outcome File :=
  match _fd f with
  | None => Raise AssertionError w
  | Some fd =>
      let '(fut, u) := submit_close_entry fd (new_id (uring w)) (uring w) in
      obind (await fut (set_uring u w)) (fun _ w =>
        Ok (set_fd None (set_offset 0 f)) w)
  end.

(** [File.read(size=None)]: [os.stat] raises [FileNotFoundError] when
    there is no file at the path. *)
Definition read (size : option Z) (f : File) (w : World)
    : outcome (bytes * File) :=
  match _fd f with
  | None => Raise AssertionError w
  | Some fd =>
      match fs w !! fpath f with
      | None => Raise FileNotFoundError w
      | Some content =>
          let fsize := Z.of_nat (length content) in
          let size := match size with None => fsize | Some n => n end in
          let size := Z.min size (fsize - _offset f) in
          if size <=? 0 then Ok ([], f) w
          else
            match submit_read_entry fd size (_offset f)
                    (new_id (uring w)) (uring w) with
            | Exc e u => Raise e (set_uring u w)
            | Ret fut u =>
                obind (await fut (set_uring u w)) (fun v w =>
                  match v with
                  | VBytes data =>
                      Ok (data,
                          set_offset (_offset f + Z.of_nat (length data)) f) w
                  | _ => Raise TypeError w
                  end)
            end
      end
  end.

(** [chunk.find(b)] for a single byte [b]: the index of its first
    occurrence, or [-1]. *)
Fixpoint find (b : byte) (chunk : bytes) : Z :=
  match chunk with
  | [] => -1
  | x :: rest =>
      if Byte.eqb x b then 0
      else let i := find b rest in if i =? -1 then -1 else i + 1
  end.

(** The [while] loop of [File.readline], unrolled at most [fuel] times. *)
Fixpoint readline_loop (fuel : nat) (line : bytes) (f : File) (w : World)
    : outcome (bytes * File) :=
  match fuel with
  | O => OutOfFuel
  | S fuel' =>
      obind (read (Some 32) f w) (fun '(chunk, f) w =>
        match chunk with
        | [] => Ok (line, f) w
        | _ =>
            let nl := find x0a chunk in
            if negb (nl =? -1) then
              Ok (line ++ take (Z.to_nat nl) chunk,
                  set_offset (_offset f + (nl + 1 - Z.of_nat (length chunk))) f)
                 w
            else readline_loop fuel' (line ++ chunk) f w
        end)
  end.

(** [File.readline] *)
Definition readline (fuel : nat) (f : File) (w : World)
    : outcome (bytes * File) :=
  readline_loop fuel [] f w.

(** [File.__aiter__]: the lines yielded, and how the generator ends
    ([Ok] when the loop is left and iteration stops). *)
Fixpoint aiter (fuel : nat) (f : File) (w : World)
    : list bytes * outcome File :=
  match fuel with
  | O => ([], OutOfFuel)
  | S fuel' =>
      match readline (S fuel') f w with
      | Ok (line, f) w =>
          match line with
          | [] => ([], Ok f w)
          | _ => let '(ls, o) := aiter fuel' f w in (line :: ls, o)
          end
      | Raise e w => ([], Raise e w)
      | Hang w => ([], Hang w)
      | OutOfFuel => ([], OutOfFuel)
      end
  end.

(** [File.write(data)]: there is no assertion on [_fd]; the prep call
    rejects [None] as a descriptor with [TypeError]. *)
Definition write (data : bytes) (f : File) (w : World) : outcome File :=
  match _fd f with
  | None => Raise TypeError (set_uring (_get_sqe (uring w)) w)
  | Some fd =>
      let '(fut, u) :=
        submit_write_entry fd data (_offset f) (new_id (uring w)) (uring w) in
      obind (await fut (set_uring u w)) (fun _ w =>
        Ok (set_offset (_offset f + Z.of_nat (length data)) f) w)
  end.

(** [File.seek(offset)] *)
Definition seek (offset : Z) (f : File) : File := set_offset offset f.

(** [File.fileno] *)
Definition fileno (f : File) : option Z := _fd f.

(** The module's [open(fpath, flags, mode, dir_fd)], awaited. *)
Definition open (path : string) (flags mode dir_fd : Z) (w : World)
    : outcome File :=
  File_open flags mode dir_fd (File_init path) w.

(** ** The example program *)

Definition hello_world : bytes :=
  list_byte_of_string "hello" ++ [x0a] ++ list_byte_of_string "world".

(** [test_read_write] of [example.py]: the lines printed, and how the
    coroutine ends.  [async with] closes the handle when the block is
    left. *)
Definition test_read_write (fuel : nat) (w : World)
    : list bytes * outcome unit :=
  let f := File_init "/hello.txt" in
  match
    obind (File_open (Z.lor O_CREAT O_WRONLY) 432 (-1) f w) (fun f w =>
    obind (write hello_world f w) (fun f w =>
    obind (close f w) (fun _ w =>
    open "/hello.txt" O_RDONLY 432 (-1) w)))
  with
  | Ok f w =>
      let '(printed, o) := aiter fuel f w in
      (printed,
       match o with
       | Ok f w => obind (close f w) (fun _ w => Ok tt w)
       | Raise e w =>
           match close f w with
           | Ok _ w => Raise e w
           | Raise e' w => Raise e' w
           | Hang w => Hang w
           | OutOfFuel => OutOfFuel
           end
       | Hang w => Hang w
       | OutOfFuel => OutOfFuel
       end)
  | Raise e w => ([], Raise e w)
  | Hang w => ([], Hang w)
  | OutOfFuel => ([], OutOfFuel)
  end.

Definition world0 : World :=
  {| uring := Uring_init 32; fs := ∅; fdtable := ∅ |}.

(** A world with one file and a ring handle not yet set up. *)
Definition world_with (path : string) (c : bytes) : World :=
  {| uring := Uring_init 32; fs := {[path := c]}; fdtable := ∅ |}.

(** Two opens in flight together, the first of a path with no file; then
    one turn of the event loop.  The two futures have the identities 100
    and 200. *)
Definition two_opens : nat * nat * World :=
  let w := world_with "/present" [] in
  let '(t0, u) := submit_open_entry "/missing" O_RDONLY 432 (-1) 100 (uring w) in
  let '(t1, u) := submit_open_entry "/present" O_RDONLY 432 (-1) 200 u in
  (t0, t1, wake (set_uring u w)).

(** The handle and the world once a file of content [c] has been opened
    for reading. *)
Definition opened (path : string) (c : bytes) : File * World :=
  match open path O_RDONLY 432 (-1) (world_with path c) with
  | Ok f w => (f, w)
  | _ => (File_init path, world_with path c)
  end.

(** The file of the example opened for reading. *)
Definition hello_open : File * World := opened "/hello.txt" hello_world.

(** A file with an empty line in the middle: [a], two newlines, [b]. *)
Definition gap_file : bytes := ["a"%byte; x0a; x0a; "b"%byte].

Definition gap_open : File * World := opened "/gap.txt" gap_file.

(** A read of four bytes that the kernel completes after two, on a ring
    handle just created. *)
Definition short_read : result nat * sqe :=
  (submit_read_entry 3 4 0 100 (Uring_init 32),
   {| sq_op := PrepReadv 3 4 0; sq_user_data := 100 |}).

(** A ring handle whose completion queue holds one failed completion. *)
Definition failed_head : Uring :=
  set_cq [{| user_data := 100; res := -2 |}] (Uring_init 32).

(** ** Runs of the ring handle *)

(** What can happen to a ring handle: a task submits an operation (the
    last argument is the identity of the future created), the kernel
    completes an entry it holds, the event loop runs the callback. *)
Inductive event :=
  | SubmitOpen (path : string) (flags mode dir_fd : Z) (fid : Z)
  | SubmitClose (fd : Z) (fid : Z)
  | SubmitRead (fd size offset : Z) (fid : Z)
  | SubmitWrite (fd : Z) (data : bytes) (offset : Z) (fid : Z)
  | Complete (s : sqe) (r : Z) (payload : bytes)
  | Callback.

(** The state after an event.  An exception that leaves the callback is
    taken by the event loop; one that leaves a submission goes to the
    submitting task. *)
Definition step (ev : event) (u : Uring) : Uring :=
  match ev with
  | SubmitOpen path flags mode dir_fd fid =>
      snd (submit_open_entry path flags mode dir_fd fid u)
  | SubmitClose fd fid => snd (submit_close_entry fd fid u)
  | SubmitRead fd size offset fid =>
      match submit_read_entry fd size offset fid u with
      | Ret _ u' => u'
      | Exc _ u' => u'
      end
  | SubmitWrite fd data offset fid =>
      snd (submit_write_entry fd data offset fid u)
  | Complete s r payload => kernel_complete s r payload u
  | Callback =>
      match eventfd_callback u with
      | Ret _ u' => u'
      | Exc _ u' => u'
      end
  end.

(** When an event can happen.  The identity of a new future is that of
    no live object, and the store keeps every future of an operation in
    flight alive, so it is not a key of the store.  The kernel completes
    only entries it was handed and has not completed yet. *)
Definition enabled (ev : event) (u : Uring) : Prop :=
  match ev with
  | SubmitOpen _ _ _ _ fid | SubmitClose _ fid
  | SubmitRead _ _ _ fid | SubmitWrite _ _ _ fid => store u !! fid = None
  | Complete s _ _ => s ∈ inflight u
  | Callback => True
  end.

Fixpoint run (evs : list event) (u : Uring) : Uring :=
  match evs with
  | [] => u
  | ev :: evs' => run evs' (step ev u)
  end.

Fixpoint valid (evs : list event) (u : Uring) : Prop :=
  match evs with
  | [] => True
  | ev :: evs' => enabled ev u ∧ valid evs' (step ev u)
  end.



(** Two reads of two bytes in flight together, which the kernel
    completes in the reverse order, one with the bytes [aa] and one with
    [bb]; then one callback. *)
Definition two_reads : list event :=
  [SubmitRead 3 2 0 100; SubmitRead 4 2 0 200;
   Complete {| sq_op := PrepReadv 4 2 0; sq_user_data := 200 |} 2
     ["b"%byte; "b"%byte];
   Complete {| sq_op := PrepReadv 3 2 0; sq_user_data := 100 |} 2
     ["a"%byte; "a"%byte];
   Callback].

(** ** Notions used in the statements *)

(** What the dispatcher hands to the future of entry [e] for a completion
    with the non-negative result code [r]. *)
Definition delivered (e : entry) (r : Z) : value :=
  match e_type e with
  | OPEN => VInt r
  | CLOSE => VNone
  | READ => VBytes (hd [] (e_args e))
  | WRITE => VNone
  end.

(** Nothing is in flight and no completion waits to be drained. *)
Definition quiet (u : Uring) : Prop := inflight u = [] ∧ cq u = [].

(** [f] holds a descriptor that is open for reading on the file at its
    path, whose content is [c], and the ring is quiet. *)
Definition readable (f : File) (w : World) (c : bytes) : Prop :=
  quiet (uring w) ∧
  fs w !! fpath f = Some c ∧
  ∃ fd flags, _fd f = Some fd ∧ fdtable w !! fd = Some (fpath f, flags) ∧
    Z.land flags O_ACCMODE ≠ O_WRONLY.

(** The bytes of the lines [ls], each followed by its newline. *)
Definition lines_bytes (ls : list bytes) : bytes :=
  concat (map (λ l, l ++ [x0a]) ls).

(** A line with at least one byte and no newline in it. *)
Definition proper_line (l : bytes) : Prop := l ≠ [] ∧ x0a ∉ l.



(** The completion at the head of the queue carries a negative result
    code. *)
Definition wedged (u : Uring) : Prop :=
  ∃ c q, cq u = c :: q ∧ res c < 0.

(** How the block of an [async with] is left: by running to its end, by
    an exception, or never; with the handle as the block leaves it. *)
Inductive block_end (A : Type) :=
  | Returned (a : A) (f : File) (w : World)
  | Raised (e : exn) (f : File) (w : World)
  | Suspended (w : World).
Arguments Returned {A} a f w.
Arguments Raised {A} e f w.
Arguments Suspended {A} w.

(** [_MaybeContextManager.__aexit__]: [_close_wrapper] awaits
    [self.close()] however the block was left and returns [None], so an
    exception of the block goes on once the handle is closed; an
    exception of [close] takes its place. *)
Definition aexit {A} (r : block_end A) : outcome A :=
  match r with
  | Returned a f w => obind (close f w) (fun _ w => Ok a w)
  | Raised e f w => obind (close f w) (fun _ w => Raise e w)
  | Suspended w => Hang w
  end.

(** [async with open(path, flags, mode, dir_fd) as f: body]:
    [__aenter__] awaits [_open_wrapper] and binds the handle. *)
Definition async_with {A} (path : string) (flags mode dir_fd : Z)
    (body : File → World → block_end A) (w : World) : outcome A :=
  obind (open path flags mode dir_fd w) (fun f w => aexit (body f w)).



(** A block that does nothing. *)
Definition empty_block (f : File) (w : World) : block_end unit :=
  Returned tt f w.

(** * Properties *)

(** ** The ring handle *)

Lemma _get_sqe_fields u :
  store (_get_sqe u) = store u ∧ heap (_get_sqe u) = heap u ∧
  inflight (_get_sqe u) = inflight u ∧ cq (_get_sqe u) = cq u ∧
  submits (_get_sqe u) = submits u.
Proof. unfold _get_sqe. by destruct (_setup_done u). Qed.

Lemma heap_fresh_pending (h : list fstate) :
  (h ++ [Pending]) !! length h = Some Pending.
Proof. by rewrite lookup_app_r, Nat.sub_diag by lia. Qed.

(** A completion with a non-negative result code whose entry is in the
    store and whose future is pending is dispatched: the future gets
    [delivered], the entry goes, the completion is consumed. *)
Lemma dispatch_ok c u e :
  0 ≤ res c →
  store u !! user_data c = Some e →
  heap u !! e_future e = Some Pending →
  (e_type e = READ → e_args e ≠ []) →
  dispatch c u =
    Ret tt (io_uring_cqe_seen
              (set_store (delete (user_data c) (store u))
                 (set_heap (<[e_future e := Done (delivered e (res c))]> (heap u))
                    u))).
Proof.
  intros Hres Hst Hh Hargs. unfold dispatch, trap_error.
  destruct (Z.ltb_spec (res c) 0) as [?|_]; [lia|]. simpl. rewrite Hst.
  unfold delivered, set_result.
  destruct (e_type e) eqn:Ht; simpl; rewrite ?Hh; simpl; try done.
  destruct (e_args e) as [|a rest] eqn:Ha; [by destruct Hargs|].
  done.
Qed.

(** A completion with a negative result code makes the dispatcher raise
    before it has looked at the store. *)
Lemma dispatch_negative c u :
  res c < 0 → dispatch c u = Exc (OSError (- res c)) u.
Proof.
  intros Hres. unfold dispatch, trap_error.
  by destruct (Z.ltb_spec (res c) 0) as [_|?]; [|lia].
Qed.

Lemma remove_sqe_last k op (l : list sqe) :
  (∀ s, s ∈ l → sq_user_data s ≠ k) →
  remove_sqe k (l ++ [{| sq_op := op; sq_user_data := k |}]) = l.
Proof.
  induction l as [|s l IH]; intros Hl; simpl.
  - by rewrite decide_True.
  - rewrite decide_False by (apply Hl; left).
    f_equal. apply IH. intros s' Hs'. apply Hl. by right.
Qed.

Lemma length_write_buffer payload array :
  length (write_buffer payload array) = length array.
Proof.
  unfold write_buffer. rewrite length_app, length_take, length_drop. lia.
Qed.

Lemma drop_repeat {A} (x : A) (k n : nat) :
  drop k (repeat x n) = repeat x (n - k).
Proof.
  revert k. induction n as [|n IH]; intros [|k]; simpl; done.
Qed.

Lemma write_buffer_zeros payload n :
  (length payload ≤ n)%nat →
  write_buffer payload (repeat x00 n) = payload ++ repeat x00 (n - length payload).
Proof.
  intros Hle. unfold write_buffer. rewrite repeat_length.
  by rewrite take_ge, drop_repeat by lia.
Qed.

(** One operation through the ring: submitted on a handle with an empty
    completion queue, completed by the kernel with a non-negative result
    code, drained by the callback. *)
Lemma round_trip rt op args fid u r payload :
  cq u = [] → 0 ≤ r → (rt = READ → args ≠ []) →
  let '(fut, u1) := _submit rt op args fid u in
  let e := {| e_type := rt; e_future := fut; e_args := args |} in
  let e' := match op with PrepReadv _ _ _ => fill_buffer payload e | _ => e end in
  ∃ u3,
    eventfd_callback
      (kernel_complete {| sq_op := op; sq_user_data := fid |} r payload u1)
      = Ret tt u3 ∧
    heap u3 = heap u ++ [Done (delivered e' r)] ∧
    store u3 = delete fid (store u) ∧
    cq u3 = [] ∧
    inflight u3
      = remove_sqe fid (inflight u ++ [{| sq_op := op; sq_user_data := fid |}]) ∧
    submits u3 = S (submits u) ∧
    _setup_done u3 = _setup_done u ∧ ring u3 = ring u ∧
    queue_exits u3 = queue_exits u ∧ queue_inits u3 = queue_inits u.
Proof.
  intros Hcq Hr Hargs. simpl.
  set (e := {| e_type := rt; e_future := length (heap u); e_args := args |}).
  set (e' := match op with PrepReadv _ _ _ => fill_buffer payload e | _ => e end).
  assert (He' : e_type e' = rt ∧ e_future e' = length (heap u) ∧
                (rt = READ → e_args e' ≠ [])).
  { subst e'. destruct op; try done.
    unfold fill_buffer. destruct (e_args e) eqn:Ha; simpl; [done|].
    by repeat split. }
  destruct He' as (Ht & Hf & Ha).
  unfold eventfd_callback, kernel_complete. simpl. rewrite Hcq. simpl.
  erewrite (dispatch_ok _ _ e'); simpl; [| done | | | ].
  - eexists. split; [done|]. simpl.
    rewrite Hf. repeat split; try done.
    + rewrite <- (Nat.add_0_r (length (heap u))) at 1.
      by rewrite insert_app_r.
    + subst e'. destruct op; simpl; rewrite ?delete_alter_eq;
        by rewrite delete_insert_eq.
  - subst e'. destruct op; simpl; rewrite ?lookup_alter_eq;
      by rewrite lookup_insert_eq.
  - rewrite Hf. apply heap_fresh_pending.
  - by rewrite Ht.
Qed.

(** C2 (the code departs from it): a completion with a negative result
    code at the head of the queue makes [eventfd_callback] raise the
    [OSError] built from the code and leave the whole state as it was:
    the future stays pending, the correlation entry stays in the store,
    the completion is not consumed and the completions behind it are not
    drained. *)
Theorem negative_completion_escapes u c q :
  cq u = c :: q → res c < 0 →
  eventfd_callback u = Exc (OSError (- res c)) u.
Proof.
  intros Hcq Hres. unfold eventfd_callback. rewrite Hcq. simpl.
  by rewrite dispatch_negative.
Qed.

(** C3 (as amended): a read of [size] bytes that the kernel completes
    with any non-negative result code resolves its token with the whole
    destination buffer: [size] bytes, whatever the completion reports,
    made of the bytes transferred followed by the zero bytes the buffer
    was allocated with. *)
Theorem read_delivers_whole_buffer u fd size offset fid r payload :
  cq u = [] → 0 ≤ size → 0 ≤ r →
  let array := repeat x00 (Z.to_nat size) in
  let s := {| sq_op := PrepReadv fd (length array) offset;
              sq_user_data := fid |} in
  ∃ fut u1 u3,
    submit_read_entry fd size offset fid u = Ret fut u1 ∧
    eventfd_callback (kernel_complete s r payload u1) = Ret tt u3 ∧
    heap u3 !! fut = Some (Done (VBytes (write_buffer payload array))) ∧
    Z.of_nat (length (write_buffer payload array)) = size ∧
    ((length payload ≤ Z.to_nat size)%nat →
     write_buffer payload array
       = payload ++ repeat x00 (Z.to_nat size - length payload)).
Proof.
  intros Hcq Hsize Hr array s.
  destruct (_get_sqe_fields u) as (Hs & Hh & Hi & Hc & Hn).
  pose proof (round_trip READ (PrepReadv fd (length array) offset) [array]
                fid (_get_sqe u) r payload) as RT.
  rewrite Hc, Hi in RT. specialize (RT Hcq Hr (λ _, ltac:(done))).
  unfold submit_read_entry.
  destruct (Z.ltb_spec size 0) as [?|_]; [lia|]. fold array.
  destruct (_submit READ _ [array] fid (_get_sqe u)) as [fut u1] eqn:Hsub.
  destruct RT as (u3 & Hcb & Hheap & _).
  exists fut, u1, u3. repeat split; try done.
  - rewrite Hheap. unfold _submit in Hsub. injection Hsub as <- _.
    by rewrite lookup_app_r, Nat.sub_diag by lia.
  - rewrite length_write_buffer. unfold array. rewrite repeat_length. lia.
  - intros Hle. by apply write_buffer_zeros.
Qed.

(** ** Awaiting an operation on a quiet ring *)

Lemma quiet_get_sqe u : quiet u → quiet (_get_sqe u).
Proof.
  destruct (_get_sqe_fields u) as (_ & _ & Hi & Hc & _).
  unfold quiet. by rewrite Hi, Hc.
Qed.

(** A task that submits one operation on a quiet ring and awaits its
    token gets what the dispatcher delivers for the kernel's result, and
    finds the ring quiet again, when the result code is not negative. *)
Lemma await_submit rt op args fid u files t r payload files' t' :
  quiet u → (rt = READ → args ≠ []) →
  kernel_exec op files t = (r, payload, files', t') → 0 ≤ r →
  let '(fut, u1) := _submit rt op args fid u in
  let e := {| e_type := rt; e_future := fut; e_args := args |} in
  let e' := match op with PrepReadv _ _ _ => fill_buffer payload e | _ => e end in
  ∃ u3,
    await fut {| uring := u1; fs := files; fdtable := t |}
      = Ok (delivered e' r) {| uring := u3; fs := files'; fdtable := t' |} ∧
    quiet u3 ∧ store u3 = delete fid (store u) ∧
    submits u3 = S (submits u).
Proof.
  intros [Hi Hc] Hargs Hk Hr.
  pose proof (round_trip rt op args fid u r payload Hc Hr Hargs) as RT.
  destruct (_submit rt op args fid u) as [fut u1] eqn:Hsub.
  destruct RT as (u3 & Hcb & Hheap & Hstore & Hcq & Hinf & Hsubm & _).
  exists u3. unfold _submit in Hsub. injection Hsub as <- <-.
  unfold await. simpl. rewrite heap_fresh_pending.
  unfold wake. simpl. rewrite Hi. simpl. rewrite Hk. simpl.
  rewrite Hi in Hinf. simpl in Hinf. rewrite decide_True in Hinf by done.
  unfold _submit in Hcb. simpl in Hcb. rewrite Hi in Hcb. simpl in Hcb.
  rewrite Hcb. simpl. rewrite Hheap.
  rewrite lookup_app_r, Nat.sub_diag by lia. simpl.
  by repeat split.
Qed.

(** ** File.read *)

(** The size [File.read] settles on. *)
Lemma read_short_circuit size f w fd c :
  _fd f = Some fd → fs w !! fpath f = Some c →
  Z.min (default (Z.of_nat (length c)) size)
        (Z.of_nat (length c) - _offset f) ≤ 0 →
  read size f w = Ok ([], f) w.
Proof.
  intros Hfd Hfs Hn. unfold read. rewrite Hfd, Hfs.
  destruct size as [n|]; simpl in *.
  - by destruct (Z.leb_spec (Z.min n (Z.of_nat (length c) - _offset f)) 0);
      [|lia].
  - by destruct (Z.leb_spec
        (Z.min (Z.of_nat (length c)) (Z.of_nat (length c) - _offset f)) 0);
      [|lia].
Qed.

Lemma read_submits size f w c :
  readable f w c → 0 ≤ _offset f →
  let n := Z.min (default (Z.of_nat (length c)) size)
                 (Z.of_nat (length c) - _offset f) in
  0 < n →
  ∃ w',
    read size f w
      = Ok (take (Z.to_nat n) (drop (Z.to_nat (_offset f)) c),
            set_offset (_offset f + n) f) w' ∧
    readable (set_offset (_offset f + n) f) w' c ∧
    submits (uring w') = S (submits (uring w)).
Proof.
  intros (Hq & Hfs & fd & flags & Hfd & Ht & Hacc) Hoff n Hn.
  unfold read. rewrite Hfd, Hfs.
  replace (match size with Some n0 => n0 | None => Z.of_nat (length c) end)
    with (default (Z.of_nat (length c)) size) by by destruct size.
  fold n. destruct (Z.leb_spec n 0) as [?|_]; [lia|].
  unfold submit_read_entry. destruct (Z.ltb_spec n 0) as [?|_]; [lia|].
  set (array := repeat x00 (Z.to_nat n)).
  set (data := take (Z.to_nat n) (drop (Z.to_nat (_offset f)) c)).
  assert (Hlen : length data = Z.to_nat n).
  { unfold data. rewrite length_take, length_drop. lia. }
  assert (Hk : kernel_exec (PrepReadv fd (length array) (_offset f))
                 (fs w) (fdtable w)
               = (Z.of_nat (length data), data, fs w, fdtable w)).
  { simpl. rewrite Ht.
    destruct (Z.eqb_spec (Z.land flags O_ACCMODE) O_WRONLY) as [?|_]; [done|].
    destruct (Z.ltb_spec (_offset f) 0) as [?|_]; [lia|].
    rewrite Hfs. unfold array. by rewrite repeat_length. }
  pose proof (await_submit READ _ [array] (new_id (uring w))
                (_get_sqe (uring w)) _ _ _ _ _ _
                (quiet_get_sqe _ Hq) (λ _, ltac:(done)) Hk ltac:(lia)) as AW.
  destruct (_submit READ _ [array] _ (_get_sqe (uring w))) as [fut u1].
  destruct AW as (u3 & Haw & Hq3 & _ & Hsub).
  unfold set_uring. rewrite Haw. simpl.
  unfold delivered, fill_buffer, write_buffer. simpl.
  replace (length array) with (length data)
    by (unfold array; rewrite repeat_length; done).
  rewrite take_ge by lia.
  rewrite drop_ge by (unfold array; rewrite repeat_length; lia).
  rewrite app_nil_r, Hlen, Z2Nat.id by lia.
  eexists. split; [done|]. split.
  - split; [done|]. split; [done|]. by exists fd, flags.
  - simpl. rewrite Hsub.
    by destruct (_get_sqe_fields (uring w)) as (_ & _ & _ & _ & ->).
Qed.

(** ** File.readline *)

Lemma find_bounds b l : -1 ≤ find b l < Z.of_nat (length l).
Proof.
  induction l as [|x l IH]; simpl; [lia|].
  destruct (Byte.eqb x b); [lia|].
  destruct (Z.eqb_spec (find b l) (-1)); lia.
Qed.

Lemma find_absent b l : b ∉ l → find b l = -1.
Proof.
  induction l as [|x l IH]; intros Hl; simpl; [done|].
  destruct (Byte.eqb x b) eqn:E.
  - apply Byte.byte_dec_bl in E. subst. destruct Hl. by left.
  - rewrite IH; [done|]. intros ?. apply Hl. by right.
Qed.

Lemma find_first b l rest :
  b ∉ l → find b (l ++ b :: rest) = Z.of_nat (length l).
Proof.
  induction l as [|x l IH]; intros Hl; simpl.
  - by rewrite Byte.byte_dec_lb.
  - destruct (Byte.eqb x b) eqn:E.
    + apply Byte.byte_dec_bl in E. subst. destruct Hl. by left.
    + rewrite IH by (intros ?; apply Hl; by right).
      destruct (Z.eqb_spec (Z.of_nat (length l)) (-1)); lia.
Qed.

Lemma set_offset_same f : set_offset (_offset f) f = f.
Proof. by destruct f. Qed.

Lemma readable_set_offset o f w c :
  readable f w c → readable (set_offset o f) w c.
Proof. done. Qed.

(** One turn of the loop of [File.readline] on a chunk that is not
    empty. *)
Lemma readline_loop_step fuel line f w chunk f1 w1 :
  read (Some 32) f w = Ok (chunk, f1) w1 → chunk ≠ [] →
  readline_loop (S fuel) line f w =
    if negb (find x0a chunk =? -1) then
      Ok (line ++ take (Z.to_nat (find x0a chunk)) chunk,
          set_offset
            (_offset f1 + (find x0a chunk + 1 - Z.of_nat (length chunk))) f1)
         w1
    else readline_loop fuel (line ++ chunk) f1 w1.
Proof. intros Hread Hne. simpl. rewrite Hread. simpl. by destruct chunk. Qed.

#[local] Arguments Nat.div : simpl never.

Lemma div32_step (n : nat) :
  (32 ≤ n)%nat → (n / 32 = S ((n - 32) / 32))%nat.
Proof.
  intros Hn. replace n with ((n - 32) + 1 * 32)%nat at 1 by lia.
  rewrite Nat.div_add by done. lia.
Qed.

(** A line that ends in a newline: [l] are the bytes from the cursor up
    to the first newline. *)
Lemma readline_loop_newline fuel : ∀ line f w c l rest,
  readable f w c → 0 ≤ _offset f →
  drop (Z.to_nat (_offset f)) c = l ++ x0a :: rest → x0a ∉ l →
  (length l / 32 < fuel)%nat →
  ∃ w',
    readline_loop fuel line f w
      = Ok (line ++ l, set_offset (_offset f + Z.of_nat (length l) + 1) f) w' ∧
    readable (set_offset (_offset f + Z.of_nat (length l) + 1) f) w' c ∧
    submits (uring w') = (submits (uring w) + length l / 32 + 1)%nat.
Proof.
  induction fuel as [|fuel IH]; intros line f w c l rest Hr Hoff Hdrop Hnl Hfuel;
    [lia|].
  assert (Hlen : (length c - Z.to_nat (_offset f) = length l + 1 + length rest)%nat).
  { rewrite <- length_drop, Hdrop, length_app. simpl. lia. }
  destruct (read_submits (Some 32) f w c Hr Hoff) as (w1 & Hread & Hr1 & Hs1);
    [simpl; lia|].
  simpl in Hread, Hr1.
  set (n := Z.min 32 (Z.of_nat (length c) - _offset f)) in *.
  rewrite Hdrop in Hread.
  destruct (decide (length l < 32)%nat) as [Hshort|Hlong].
  - (* the newline is in this chunk *)
    assert (Hn : (length l < Z.to_nat n)%nat) by lia.
    rewrite take_app_ge in Hread by lia.
    replace (Z.to_nat n - length l)%nat with (S (Z.to_nat n - length l - 1))
      in Hread by lia.
    simpl in Hread.
    rewrite (readline_loop_step _ _ _ _ _ _ _ Hread) by by destruct l.
    rewrite find_first by done.
    destruct (Z.eqb_spec (Z.of_nat (length l)) (-1)) as [?|_]; [lia|].
    simpl. exists w1. rewrite Nat2Z.id, take_app_length.
    replace (_offset f + n + (Z.of_nat (length l) + 1
               - Z.of_nat (length (l ++ x0a :: take (Z.to_nat n - length l - 1) rest))))
      with (_offset f + Z.of_nat (length l) + 1).
    2:{ rewrite length_app. simpl. rewrite length_take. lia. }
    split; [done|].
    split; [exact Hr1|]. rewrite Hs1.
    replace (length l / 32)%nat with 0%nat; [lia|].
    symmetry. by apply Nat.div_small.
  - (* a full chunk without newline *)
    assert (Hn : n = 32) by lia.
    rewrite Hn in *. rewrite take_app_le in Hread by lia.
    assert (Hchunk : find x0a (take (Z.to_nat 32) l) = -1).
    { apply find_absent. intros Hin. apply Hnl.
      by apply (subseteq_take (Z.to_nat 32)). }
    rewrite (readline_loop_step _ _ _ _ _ _ _ Hread).
    2:{ intros Hc. apply (f_equal length) in Hc.
        rewrite length_take in Hc. change (length (@nil byte)) with 0%nat in Hc.
        lia. }
    rewrite Hchunk. simpl.
    set (f1 := set_offset (_offset f + 32) f) in *.
    destruct (IH (line ++ take (Z.to_nat 32) l) f1 w1 c (drop 32 l) rest)
      as (w2 & Hloop & Hr2 & Hs2); try done.
    + simpl. lia.
    + simpl. replace (Z.to_nat (_offset f + 32)) with (Z.to_nat (_offset f) + 32)%nat
        by lia.
      by rewrite <- drop_drop, Hdrop, drop_app_le by lia.
    + intros Hin. apply Hnl. by apply (subseteq_drop 32%nat).
    + rewrite length_drop. rewrite div32_step in Hfuel; lia.
    + exists w2. rewrite Hloop. simpl. rewrite length_drop in *.
      rewrite (div32_step (length l)) by lia.
      rewrite <- app_assoc, take_drop.
      replace (_offset f + 32 + Z.of_nat (length l - 32) + 1)
        with (_offset f + Z.of_nat (length l) + 1) in * by lia.
      split; [done|]. split; [exact Hr2|]. rewrite Hs2, Hs1. lia.
Qed.

(** The last line of a file that does not end in a newline, and the end
    of the file: [l] are the bytes from the cursor on, none a newline. *)
Lemma readline_loop_eof fuel : ∀ line f w c l,
  readable f w c → 0 ≤ _offset f →
  drop (Z.to_nat (_offset f)) c = l → x0a ∉ l →
  ((length l + 31) / 32 < fuel)%nat →
  ∃ w',
    readline_loop fuel line f w
      = Ok (line ++ l, set_offset (_offset f + Z.of_nat (length l)) f) w' ∧
    readable f w' c ∧
    submits (uring w') = (submits (uring w) + (length l + 31) / 32)%nat.
Proof.
  induction fuel as [|fuel IH]; intros line f w c l Hr Hoff Hdrop Hnl Hfuel;
    [lia|].
  assert (Hlen : (length c - Z.to_nat (_offset f) = length l)%nat).
  { by rewrite <- length_drop, Hdrop. }
  destruct (decide (length l = 0)%nat) as [Hz|Hnz].
  - (* at or past the end: the read is cut short *)
    destruct Hr as (Hq & Hfs & fd & flags & Hfd & Ht & Hacc).
    exists w. simpl.
    rewrite (read_short_circuit (Some 32) f w fd c) by (simpl; done || lia).
    simpl. apply nil_length_inv in Hz. rewrite Hz.
    rewrite app_nil_r, Z.add_0_r, set_offset_same.
    split; [done|]. split; [|rewrite Nat.div_small; simpl; lia].
    split; [done|]. split; [done|]. by exists fd, flags.
  - destruct (read_submits (Some 32) f w c Hr Hoff) as (w1 & Hread & Hr1 & Hs1);
      [simpl; lia|].
    simpl in Hread, Hr1.
    set (n := Z.min 32 (Z.of_nat (length c) - _offset f)) in *.
    rewrite Hdrop in Hread.
    assert (Hchunk : find x0a (take (Z.to_nat n) l) = -1).
    { apply find_absent. intros Hin. apply Hnl.
      by apply (subseteq_take (Z.to_nat n)). }
    rewrite (readline_loop_step _ _ _ _ _ _ _ Hread).
    2:{ intros Hc. apply (f_equal length) in Hc.
        rewrite length_take in Hc. change (length (@nil byte)) with 0%nat in Hc.
        lia. }
    rewrite Hchunk. simpl.
    set (f1 := set_offset (_offset f + n) f) in *.
    assert (Hdiv : ((length l + 31) / 32
                    = S ((length (drop (Z.to_nat n) l) + 31) / 32))%nat).
    { rewrite length_drop. destruct (decide (length l < 32)%nat).
      - replace (length l - Z.to_nat n)%nat with 0%nat by lia.
        rewrite (div32_step (length l + 31)) by lia.
        rewrite !Nat.div_small; lia.
      - rewrite (div32_step (length l + 31)) by lia.
        do 2 f_equal. lia. }
    destruct (IH (line ++ take (Z.to_nat n) l) f1 w1 c (drop (Z.to_nat n) l))
      as (w2 & Hloop & Hr2 & Hs2); try done.
    + simpl. lia.
    + simpl. replace (Z.to_nat (_offset f + n))
        with (Z.to_nat (_offset f) + Z.to_nat n)%nat by lia.
      by rewrite <- drop_drop, Hdrop.
    + intros Hin. apply Hnl. by apply (subseteq_drop (Z.to_nat n)).
    + lia.
    + exists w2. rewrite Hloop. simpl.
      rewrite <- app_assoc, take_drop.
      replace (_offset f + n + Z.of_nat (length (drop (Z.to_nat n) l)))
        with (_offset f + Z.of_nat (length l))
        by (rewrite length_drop; lia).
      split; [done|]. split; [exact Hr2|]. rewrite Hs2, Hs1. lia.
Qed.

(** ** File.__aiter__ *)

Lemma div32_le (n : nat) : (n / 32 ≤ n)%nat.
Proof. apply Nat.Div0.div_le_upper_bound. lia. Qed.

(** The generator yields a line that ends in a newline and goes on from
    the byte after it. *)
Lemma aiter_yield fuel f w c l rest :
  readable f w c → 0 ≤ _offset f →
  drop (Z.to_nat (_offset f)) c = l ++ x0a :: rest → proper_line l →
  (length l < S fuel)%nat →
  ∃ w',
    readable (set_offset (_offset f + Z.of_nat (length l) + 1) f) w' c ∧
    aiter (S fuel) f w =
      (let '(ls, o) :=
         aiter fuel (set_offset (_offset f + Z.of_nat (length l) + 1) f) w' in
       (l :: ls, o)).
Proof.
  intros Hr Hoff Hdrop [Hne Hnl] Hfuel.
  destruct (readline_loop_newline (S fuel) [] f w c l rest Hr Hoff Hdrop Hnl)
    as (w' & Hrl & Hr' & _).
  { pose proof (div32_le (length l)). lia. }
  exists w'. split; [done|].
  change (aiter (S fuel) f w) with
    (match readline (S fuel) f w with
     | Ok (line, f) w =>
         match line with
         | [] => ([], Ok f w)
         | _ => let '(ls, o) := aiter fuel f w in (line :: ls, o)
         end
     | Raise e w => ([], Raise e w)
     | Hang w => ([], Hang w)
     | OutOfFuel => ([], OutOfFuel)
     end).
  unfold readline. rewrite Hrl. simpl. by destruct l.
Qed.

(** The generator ends, without a further yield, on an empty line: a
    newline under the cursor. *)
Lemma aiter_empty_line fuel f w c post :
  readable f w c → 0 ≤ _offset f →
  drop (Z.to_nat (_offset f)) c = x0a :: post →
  ∃ w',
    aiter (S fuel) f w = ([], Ok (set_offset (_offset f + 1) f) w') ∧
    readable (set_offset (_offset f + 1) f) w' c.
Proof.
  intros Hr Hoff Hdrop.
  destruct (readline_loop_newline (S fuel) [] f w c [] post Hr Hoff Hdrop)
    as (w' & Hrl & Hr' & _).
  { apply not_elem_of_nil. }
  { simpl. rewrite Nat.div_small; lia. }
  change (_offset f + Z.of_nat (length (@nil byte)) + 1)
    with (_offset f + 0 + 1) in *.
  rewrite Z.add_0_r in Hrl, Hr'.
  exists w'. split; [|done].
  change (aiter (S fuel) f w) with
    (match readline (S fuel) f w with
     | Ok (line, f) w =>
         match line with
         | [] => ([], Ok f w)
         | _ => let '(ls, o) := aiter fuel f w in (line :: ls, o)
         end
     | Raise e w => ([], Raise e w)
     | Hang w => ([], Hang w)
     | OutOfFuel => ([], OutOfFuel)
     end).
  unfold readline. by rewrite Hrl.
Qed.

Lemma length_lines_bytes_cons l ls :
  length (lines_bytes (l :: ls)) = (length l + 1 + length (lines_bytes ls))%nat.
Proof.
  unfold lines_bytes. simpl. rewrite !length_app. simpl. lia.
Qed.

(** The generator yields, in order, the lines under the cursor that have
    at least one byte and end in a newline. *)
Lemma aiter_lines ls : ∀ fuel f w c tl,
  readable f w c → 0 ≤ _offset f → Forall proper_line ls →
  drop (Z.to_nat (_offset f)) c = lines_bytes ls ++ tl →
  (length (lines_bytes ls) ≤ fuel)%nat →
  ∃ w',
    readable (set_offset (_offset f + Z.of_nat (length (lines_bytes ls))) f)
      w' c ∧
    aiter fuel f w =
      (let '(r, e) :=
         aiter (fuel - length ls)
           (set_offset (_offset f + Z.of_nat (length (lines_bytes ls))) f) w' in
       (ls ++ r, e)).
Proof.
  induction ls as [|l ls IH]; intros fuel f w c tl Hr Hoff Hls Hdrop Hfuel.
  - exists w. change (length (lines_bytes [])) with 0%nat.
    rewrite Z.add_0_r, set_offset_same, Nat.sub_0_r.
    split; [done|]. by destruct (aiter fuel f w).
  - apply Forall_cons in Hls as [Hl Hls].
    rewrite length_lines_bytes_cons in *.
    destruct fuel as [|fuel]; [lia|].
    destruct (aiter_yield fuel f w c l (lines_bytes ls ++ tl) Hr Hoff)
      as (w1 & Hr1 & Hy); [|done|lia|].
    { rewrite Hdrop. unfold lines_bytes. simpl.
      by rewrite <- !app_assoc. }
    set (f1 := set_offset (_offset f + Z.of_nat (length l) + 1) f) in *.
    destruct (IH fuel f1 w1 c tl Hr1) as (w2 & Hr2 & Hit); [simpl; lia|done| |lia|].
    { simpl. replace (Z.to_nat (_offset f + Z.of_nat (length l) + 1))
        with (Z.to_nat (_offset f) + (length l + 1))%nat by lia.
      rewrite <- drop_drop, Hdrop. unfold lines_bytes at 1. simpl.
      rewrite <- (app_assoc (l ++ [x0a])). rewrite drop_app_length'; [done|].
      rewrite length_app. simpl. lia. }
    exists w2.
    replace (_offset f + Z.of_nat (length l + 1 + length (lines_bytes ls)))
      with (_offset f1 + Z.of_nat (length (lines_bytes ls)))
      by (simpl; lia).
    split; [exact Hr2|].
    rewrite Hy, Hit. simpl.
    by destruct (aiter _ _ w2).
Qed.

Lemma match_nonempty {A B} (l : list A) (a b : B) :
  l ≠ [] → match l with [] => a | _ :: _ => b end = b.
Proof. by destruct l. Qed.

(** The generator after the last newline: it yields what is left, if
    anything, and ends at the end of the file. *)
Lemma aiter_last fuel f w c l :
  readable f w c → 0 ≤ _offset f →
  drop (Z.to_nat (_offset f)) c = l → x0a ∉ l →
  (length l + 1 < fuel)%nat →
  ∃ w',
    aiter fuel f w
      = (match l with [] => [] | _ => [l] end,
         Ok (set_offset (_offset f + Z.of_nat (length l)) f) w') ∧
    readable f w' c.
Proof.
  intros Hr Hoff Hdrop Hnl Hfuel.
  destruct fuel as [|fuel]; [lia|].
  destruct (readline_loop_eof (S fuel) [] f w c l Hr Hoff Hdrop Hnl)
    as (w1 & Hrl & Hr1 & _).
  { pose proof (div32_le (length l + 31)).
    destruct (decide (length l + 31 < 32)%nat).
    - rewrite Nat.div_small; lia.
    - rewrite div32_step by lia. pose proof (div32_le (length l + 31 - 32)). lia. }
  change (aiter (S fuel) f w) with
    (match readline (S fuel) f w with
     | Ok (line, f) w =>
         match line with
         | [] => ([], Ok f w)
         | _ => let '(ls, o) := aiter fuel f w in (line :: ls, o)
         end
     | Raise e w => ([], Raise e w)
     | Hang w => ([], Hang w)
     | OutOfFuel => ([], OutOfFuel)
     end).
  unfold readline. rewrite Hrl.
  change ([] ++ l) with l.
  destruct (decide (l = [])) as [->|Hne]; [by exists w1|].
  rewrite !(match_nonempty l) by done.
  set (f1 := set_offset (_offset f + Z.of_nat (length l)) f) in *.
  destruct fuel as [|fuel]; [lia|].
  destruct (readline_loop_eof (S fuel) [] f1 w1 c [] Hr1)
    as (w2 & Hrl2 & Hr2 & _).
  { simpl. lia. }
  { simpl. replace (Z.to_nat (_offset f + Z.of_nat (length l)))
      with (Z.to_nat (_offset f) + length l)%nat by lia.
    rewrite <- drop_drop, Hdrop. by apply drop_all. }
  { apply not_elem_of_nil. }
  { simpl. rewrite Nat.div_small; lia. }
  exists w2.
  change (aiter (S fuel) f1 w1) with
    (match readline (S fuel) f1 w1 with
     | Ok (line, f) w =>
         match line with
         | [] => ([], Ok f w)
         | _ => let '(ls, o) := aiter fuel f w in (line :: ls, o)
         end
     | Raise e w => ([], Raise e w)
     | Hang w => ([], Hang w)
     | OutOfFuel => ([], OutOfFuel)
     end).
  unfold readline. rewrite Hrl2.
  change (_offset f1 + Z.of_nat (length (@nil byte))) with (_offset f1 + 0).
  rewrite Z.add_0_r, set_offset_same. split; [done|exact Hr2].
Qed.

(** ** The claims on [File] *)

(** C4: [read(size)] on an open handle settles on
    [min(size, fsize - offset)], with [size] standing for the file size
    when it is not given.  When that is not positive, in particular at
    [offset = fsize], the result is empty and neither the world (so
    nothing is submitted) nor the handle changes.  Otherwise, on a
    handle open for reading, exactly one operation is submitted, the
    result is that many bytes of the file from the offset on, and the
    offset advances by as much; a read without a size returns the
    [fsize - offset] bytes to the end of the file. *)
Theorem read_clamps size f w fd c :
  _fd f = Some fd → fs w !! fpath f = Some c →
  let fsize := Z.of_nat (length c) in
  let n := Z.min (default fsize size) (fsize - _offset f) in
  (n ≤ 0 → read size f w = Ok ([], f) w) ∧
  (_offset f = fsize → read size f w = Ok ([], f) w) ∧
  (readable f w c → 0 < n → 0 ≤ _offset f →
   ∃ data w',
     read size f w = Ok (data, set_offset (_offset f + n) f) w' ∧
     data = take (Z.to_nat n) (drop (Z.to_nat (_offset f)) c) ∧
     Z.of_nat (length data) = n ∧
     submits (uring w') = S (submits (uring w))) ∧
  (readable f w c → size = None → 0 ≤ _offset f ≤ fsize →
   ∃ data f' w',
     read size f w = Ok (data, f') w' ∧
     data = drop (Z.to_nat (_offset f)) c ∧
     Z.of_nat (length data) = fsize - _offset f).
Proof.
  intros Hfd Hfs fsize n.
  assert (Hcut : n ≤ 0 → read size f w = Ok ([], f) w).
  { intros Hn. by apply (read_short_circuit size f w fd c). }
  assert (Hsub : readable f w c → 0 < n → 0 ≤ _offset f →
    ∃ data w',
      read size f w = Ok (data, set_offset (_offset f + n) f) w' ∧
      data = take (Z.to_nat n) (drop (Z.to_nat (_offset f)) c) ∧
      Z.of_nat (length data) = n ∧
      submits (uring w') = S (submits (uring w))).
  { intros Hr Hn Hoff.
    destruct (read_submits size f w c Hr Hoff Hn) as (w' & Hread & _ & Hs).
    eexists _, w'. split; [exact Hread|]. split; [done|]. split; [|done].
    rewrite length_take, length_drop. subst n fsize. lia. }
  split; [done|]. split; [|split; [done|]].
  - intros Hoff. apply Hcut. subst n. lia.
  - intros Hr -> [Hoff Hle]. simpl in n.
    destruct (decide (n ≤ 0)) as [Hn|Hn].
    + exists [], f, w. split; [by apply Hcut|].
      rewrite drop_ge by (subst n fsize; lia). split; [done|].
      simpl. subst n. lia.
    + destruct Hsub as (data & w' & Hread & -> & Hlen & _); [done|lia|done|].
      eexists _, _, w'. split; [exact Hread|].
      rewrite take_ge by (rewrite length_drop; subst n fsize; lia).
      split; [done|]. rewrite length_drop. subst fsize. lia.
Qed.

(** C5: [readline()] reads chunks of 32 bytes, one ring operation per
    chunk.  (a) When the bytes from the cursor on are [l], a newline and
    [rest], with no newline in [l], it returns [l], without the newline,
    after reading the [length l / 32 + 1] chunks up to the one holding
    the newline, and leaves the cursor one byte past the newline. (b)
    When the bytes [l] from the cursor to the end of the file hold no
    newline, it returns [l] (empty at the end of the file) after reading
    the chunks that cover [l]; the read that follows returns empty and
    ends the loop. *)
Theorem readline_reads_a_line f w c l :
  readable f w c → 0 ≤ _offset f → x0a ∉ l →
  (∀ rest fuel,
     drop (Z.to_nat (_offset f)) c = l ++ x0a :: rest →
     (length l / 32 < fuel)%nat →
     ∃ w',
       readline fuel f w
         = Ok (l, set_offset (_offset f + Z.of_nat (length l) + 1) f) w' ∧
       c !! Z.to_nat (_offset f + Z.of_nat (length l)) = Some x0a ∧
       submits (uring w') = (submits (uring w) + length l / 32 + 1)%nat) ∧
  (∀ fuel,
     drop (Z.to_nat (_offset f)) c = l →
     ((length l + 31) / 32 < fuel)%nat →
     ∃ w',
       readline fuel f w
         = Ok (l, set_offset (_offset f + Z.of_nat (length l)) f) w' ∧
       submits (uring w') = (submits (uring w) + (length l + 31) / 32)%nat).
Proof.
  intros Hr Hoff Hnl. split.
  - intros rest fuel Hdrop Hfuel.
    destruct (readline_loop_newline fuel [] f w c l rest Hr Hoff Hdrop Hnl Hfuel)
      as (w' & Hrl & _ & Hs).
    exists w'. split; [exact Hrl|]. split; [|done].
    replace (Z.to_nat (_offset f + Z.of_nat (length l)))
      with (Z.to_nat (_offset f) + length l)%nat by lia.
    rewrite <- lookup_drop, Hdrop. by apply list_lookup_middle.
  - intros fuel Hdrop Hfuel.
    destruct (readline_loop_eof fuel [] f w c l Hr Hoff Hdrop Hnl Hfuel)
      as (w' & Hrl & _ & Hs).
    by exists w'.
Qed.

Lemma find_absent_inv b l : find b l = -1 → b ∉ l.
Proof.
  induction l as [|x l IH]; simpl; intros Hf; [apply not_elem_of_nil|].
  destruct (Byte.eqb x b) eqn:E; [done|].
  apply Byte.eqb_false in E.
  destruct (Z.eqb_spec (find b l) (-1)) as [Hl|Hl].
  - apply not_elem_of_cons. split; [done|]. by apply IH.
  - pose proof (find_bounds b l). lia.
Qed.

(** C6: on a file whose content is the 11 bytes of [hello], a newline
    and [world], read from the start, the first [readline] returns
    [hello], the second [world] and the third an empty result; line
    iteration yields exactly these two lines and stops; the example
    program prints them. *)
Theorem hello_world_lines :
  let hello := list_byte_of_string "hello" in
  let world := list_byte_of_string "world" in
  (∀ f w fuel, readable f w hello_world → _offset f = 0 → (8 ≤ fuel)%nat →
     ∃ w1 w2 w3 w4,
       readline fuel f w = Ok (hello, set_offset 6 f) w1 ∧
       readline fuel (set_offset 6 f) w1 = Ok (world, set_offset 11 f) w2 ∧
       readline fuel (set_offset 11 f) w2 = Ok ([], set_offset 11 f) w3 ∧
       aiter fuel f w = ([hello; world], Ok (set_offset 11 f) w4)) ∧
  fst (test_read_write 3 world0) = [hello; world].
Proof.
  intros hello world. split; [|by vm_compute].
  intros f w fuel Hr Hoff Hfuel.
  assert (Hh : x0a ∉ hello) by by apply find_absent_inv.
  assert (Hw : x0a ∉ world) by by apply find_absent_inv.
  destruct (readline_loop_newline fuel [] f w hello_world hello world Hr)
    as (w1 & Hrl1 & Hr1 & _); [lia|by rewrite Hoff|done| |].
  { change (length hello) with 5%nat. rewrite Nat.div_small; lia. }
  rewrite Hoff in Hrl1, Hr1. change (0 + Z.of_nat (length hello) + 1) with 6 in *.
  destruct (readline_loop_eof fuel [] (set_offset 6 f) w1 hello_world world Hr1)
    as (w2 & Hrl2 & Hr2 & _); [done|done|done| |].
  { change (length world) with 5%nat.
    change ((5 + 31) / 32)%nat with 1%nat. lia. }
  change (_offset (set_offset 6 f) + Z.of_nat (length world)) with 11 in Hrl2.
  destruct (readline_loop_eof fuel [] (set_offset 11 f) w2 hello_world []
              Hr2) as (w3 & Hrl3 & _); [done|done|apply not_elem_of_nil| |].
  { change ((length (@nil byte) + 31) / 32)%nat with 0%nat. lia. }
  destruct (aiter_lines [hello] fuel f w hello_world world Hr)
    as (w' & Hr' & Hit); [lia| |by rewrite Hoff| |].
  { by repeat constructor. }
  { change (length (lines_bytes [hello])) with 6%nat. lia. }
  rewrite Hoff in Hit, Hr'.
  change (0 + Z.of_nat (length (lines_bytes [hello]))) with 6 in *.
  destruct (aiter_last (fuel - 1) (set_offset 6 f) w' hello_world world Hr')
    as (w4 & Hlast & _); [done|done|done| |].
  { change (length world) with 5%nat. lia. }
  exists w1, w2, w3, w4. repeat split; try done.
  change (length [hello]) with 1%nat in Hit. by rewrite Hit, Hlast.
Qed.

(** A successful [read] leaves the path and the descriptor of the handle
    as they were. *)
Lemma read_ok_handle size f w data f1 w1 :
  read size f w = Ok (data, f1) w1 →
  fpath f1 = fpath f ∧ _fd f1 = _fd f ∧ is_Some (_fd f).
Proof.
  unfold read. destruct (_fd f) as [fd|] eqn:Hfd; [|done].
  destruct (fs w !! fpath f) as [c|]; [|done].
  destruct (_ <=? 0).
  { intros [= <- <- <-]. by rewrite Hfd. }
  destruct (submit_read_entry _ _ _ _ _) as [fut u|]; [|done].
  destruct (await fut _) as [v w'| | |]; simpl; try done.
  destruct v; try done. intros [= <- <- <-]. simpl. by rewrite Hfd.
Qed.

Lemma readline_loop_handle fuel : ∀ line f w r f' w',
  readline_loop fuel line f w = Ok (r, f') w' →
  fpath f' = fpath f ∧ _fd f' = _fd f ∧ is_Some (_fd f).
Proof.
  induction fuel as [|fuel IH]; intros line f w r f' w'; [done|]. simpl.
  destruct (read (Some 32) f w) as [[chunk f1] w1| | |] eqn:Hread; try done.
  apply read_ok_handle in Hread as (Hp & Hd & Hs). simpl.
  destruct chunk as [|x chunk].
  { intros [= <- <- <-]. by rewrite Hp, Hd. }
  destruct (negb _).
  - intros [= <- <- <-]. simpl. by rewrite Hp, Hd.
  - intros Hl. apply IH in Hl as (Hp' & Hd' & _).
    by rewrite Hp', Hd', Hp, Hd.
Qed.



(** C10: line iteration yields the lines under the cursor that have at
    least one byte, up to the first empty line, and stops there with the
    cursor one byte past that line's newline: the bytes [post] after the
    empty line are not read and no line of them is yielded. *)
Theorem aiter_stops_at_empty_line fuel f w c ls post :
  readable f w c → 0 ≤ _offset f → Forall proper_line ls →
  drop (Z.to_nat (_offset f)) c = lines_bytes ls ++ x0a :: post →
  (length (lines_bytes ls) + length ls < fuel)%nat →
  ∃ w',
    aiter fuel f w
      = (ls,
         Ok (set_offset
               (_offset f + Z.of_nat (length (lines_bytes ls)) + 1) f) w').
Proof.
  intros Hr Hoff Hls Hdrop Hfuel.
  destruct (aiter_lines ls fuel f w c (x0a :: post) Hr Hoff Hls Hdrop)
    as (w1 & Hr1 & Hit); [lia|].
  set (f1 := set_offset (_offset f + Z.of_nat (length (lines_bytes ls))) f) in *.
  destruct (fuel - length ls)%nat as [|k] eqn:Hk; [lia|].
  destruct (aiter_empty_line k f1 w1 c post Hr1) as (w2 & Hend & _).
  { simpl. lia. }
  { simpl. replace (Z.to_nat (_offset f + Z.of_nat (length (lines_bytes ls))))
      with (Z.to_nat (_offset f) + length (lines_bytes ls))%nat by lia.
    rewrite <- drop_drop, Hdrop. by rewrite drop_app_length. }
  exists w2. rewrite Hit, Hend. by rewrite app_nil_r.
Qed.

(** C8: [close()] on a handle without a descriptor fails its assertion
    at once; whenever it returns, the handle has the same path, no
    descriptor and offset zero, which is what [open] asserts; and on a
    quiet ring it does return for an open descriptor, after one CLOSE
    submission that removes the descriptor from the table. *)
Theorem close_resets_handle f w :
  (_fd f = None → close f w = Raise AssertionError w) ∧
  (∀ f' w', close f w = Ok f' w' →
     is_Some (_fd f) ∧
     f' = {| fpath := fpath f; _fd := None; _offset := 0 |}) ∧
  (∀ fd x, _fd f = Some fd → quiet (uring w) → fdtable w !! fd = Some x →
     ∃ w',
       close f w = Ok {| fpath := fpath f; _fd := None; _offset := 0 |} w' ∧
       fdtable w' = delete fd (fdtable w) ∧
       submits (uring w') = S (submits (uring w))).
Proof.
  split; [|split].
  - intros Hfd. unfold close. by rewrite Hfd.
  - intros f' w'. unfold close. destruct (_fd f) as [fd|]; [|done].
    destruct (submit_close_entry _ _ _) as [fut u].
    destruct (await fut _) as [v w1| | |]; simpl; try done.
    intros [= <- <-]. by split.
  - intros fd x Hfd Hq Ht. unfold close, submit_close_entry. rewrite Hfd.
    assert (Hk : kernel_exec (PrepClose fd) (fs w) (fdtable w)
                 = (0, [], fs w, delete fd (fdtable w))).
    { simpl. by rewrite Ht. }
    pose proof (await_submit CLOSE _ [] (new_id (uring w))
                  (_get_sqe (uring w)) _ _ _ _ _ _
                  (quiet_get_sqe _ Hq) (λ H, ltac:(done)) Hk ltac:(lia)) as AW.
    destruct (_submit CLOSE _ [] _ (_get_sqe (uring w))) as [fut u1].
    destruct AW as (u3 & Haw & _ & _ & Hsub).
    unfold set_uring. rewrite Haw. simpl.
    eexists. split; [done|]. split; [done|]. simpl. rewrite Hsub.
    by destruct (_get_sqe_fields (uring w)) as (_ & _ & _ & _ & ->).
Qed.

(** ** Teardown *)

(** C9 (the code departs from it): [cleanup] on a live ring releases the
    ring and resets the setup flag; a second [cleanup] goes to the
    exited ring all the same and raises.  The exit hooks show it: a ring
    handle set up, cleaned up and set up again has [cleanup] registered
    twice, and the second hook raises. *)
Theorem cleanup_twice_raises u :
  ring u = RingLive →
  ∃ u1,
    cleanup u = Ret tt u1 ∧
    _setup_done u1 = false ∧ queue_exits u1 = S (queue_exits u) ∧
    cleanup u1 = Exc (OSError 9) u1 ∧
    (ring (_get_sqe u1) = RingLive ∧
     atexit_hooks (_get_sqe u1) = S (atexit_hooks u)).
Proof.
  intros Hlive. unfold cleanup at 1. rewrite Hlive.
  eexists. split; [done|]. by repeat split.
Qed.

(** ** Correlation of completions *)

(** C1 (the code departs from it): of two opens in flight together, the
    first fails in the kernel.  After the event loop has run the
    callback, neither token is resolved, both completions are still in
    the queue and both entries in the store; the callback raises again
    whenever it runs, and a task awaiting either token never resumes. *)
Theorem failed_open_blocks_tokens :
  let '(t0, t1, w) := two_opens in
  heap (uring w) !! t0 = Some Pending ∧
  heap (uring w) !! t1 = Some Pending ∧
  cq (uring w) = [{| user_data := 100; res := -2 |};
                  {| user_data := 200; res := 3 |}] ∧
  dom (store (uring w)) = {[100; 200]} ∧
  eventfd_callback (uring w) = Exc (OSError 2) (uring w) ∧
  await t0 w = Hang w ∧ await t1 w = Hang w.
Proof. vm_compute. by repeat split. Qed.

(** ** The claims at concrete inputs *)

Lemma hello_open_readable :
  readable (fst hello_open) (snd hello_open) hello_world.
Proof.
  split; [by split|]. split; [by vm_compute|].
  exists 3, O_RDONLY. by repeat split.
Qed.

Lemma negative_completion_escapes_witness :
  eventfd_callback failed_head = Exc (OSError (- -2)) failed_head.
Proof.
  apply (negative_completion_escapes failed_head
           {| user_data := 100; res := -2 |} []); [reflexivity|simpl; lia].
Defined.

(** C3 as stated fails on a short read: the kernel transfers two bytes
    into a buffer of four and reports two; the token is resolved with
    all four bytes, not with the two transferred. *)
Lemma short_read_not_truncated :
  match short_read with
  | (Ret fut u1, s) =>
      match eventfd_callback
              (kernel_complete s 2 ["a"%byte; "b"%byte] u1) with
      | Ret _ u3 =>
          heap u3 !! fut
            = Some (Done (VBytes ["a"%byte; "b"%byte; x00; x00])) ∧
          ["a"%byte; "b"%byte; x00; x00] ≠ take 2 ["a"%byte; "b"%byte; x00; x00]
      | Exc _ _ => False
      end
  | (Exc _ _, _) => False
  end.
Proof. vm_compute. by split. Qed.

Lemma read_delivers_whole_buffer_witness :
  ∃ fut u1 u3,
    submit_read_entry 3 4 0 100 (Uring_init 32) = Ret fut u1 ∧
    eventfd_callback
      (kernel_complete
         {| sq_op := PrepReadv 3 (length (repeat x00 (Z.to_nat 4))) 0;
            sq_user_data := 100 |} 2 ["a"%byte; "b"%byte] u1) = Ret tt u3 ∧
    heap u3 !! fut
      = Some (Done (VBytes (write_buffer ["a"%byte; "b"%byte]
                              (repeat x00 (Z.to_nat 4))))) ∧
    Z.of_nat (length (write_buffer ["a"%byte; "b"%byte]
                        (repeat x00 (Z.to_nat 4)))) = 4 ∧
    ((length ["a"%byte; "b"%byte] ≤ Z.to_nat 4)%nat →
     write_buffer ["a"%byte; "b"%byte] (repeat x00 (Z.to_nat 4))
       = ["a"%byte; "b"%byte]
           ++ repeat x00 (Z.to_nat 4 - length ["a"%byte; "b"%byte])).
Proof.
  apply (read_delivers_whole_buffer (Uring_init 32) 3 4 0 100 2
           ["a"%byte; "b"%byte]); [reflexivity|lia|lia].
Defined.

Lemma gap_open_readable : readable (fst gap_open) (snd gap_open) gap_file.
Proof.
  split; [by split|]. split; [by vm_compute|].
  exists 3, O_RDONLY. by repeat split.
Qed.

Lemma read_clamps_witness :
  ∃ data f' w',
    read None (fst hello_open) (snd hello_open) = Ok (data, f') w' ∧
    data = drop (Z.to_nat (_offset (fst hello_open))) hello_world ∧
    Z.of_nat (length data)
      = Z.of_nat (length hello_world) - _offset (fst hello_open).
Proof.
  destruct (read_clamps None (fst hello_open) (snd hello_open) 3 hello_world)
    as (_ & _ & _ & H).
  - reflexivity.
  - vm_compute. reflexivity.
  - apply H; [exact hello_open_readable|reflexivity|].
    vm_compute. split; discriminate.
Defined.

Lemma readline_reads_a_line_witness :
  ∃ w',
    readline 1 (fst hello_open) (snd hello_open)
      = Ok (list_byte_of_string "hello",
            set_offset
              (_offset (fst hello_open)
               + Z.of_nat (length (list_byte_of_string "hello")) + 1)
              (fst hello_open)) w' ∧
    hello_world
      !! Z.to_nat (_offset (fst hello_open)
                   + Z.of_nat (length (list_byte_of_string "hello")))
      = Some x0a ∧
    submits (uring w')
      = (submits (uring (snd hello_open))
         + length (list_byte_of_string "hello") / 32 + 1)%nat.
Proof.
  destruct (readline_reads_a_line (fst hello_open) (snd hello_open)
              hello_world (list_byte_of_string "hello")
              hello_open_readable) as [H _].
  - vm_compute. discriminate.
  - apply find_absent_inv. reflexivity.
  - apply (H (list_byte_of_string "world") 1%nat); [reflexivity|].
    vm_compute. lia.
Defined.


Lemma aiter_stops_at_empty_line_witness :
  ∃ w',
    aiter 4 (fst gap_open) (snd gap_open)
      = ([["a"%byte]],
         Ok (set_offset
               (_offset (fst gap_open)
                + Z.of_nat (length (lines_bytes [["a"%byte]])) + 1)
               (fst gap_open)) w').
Proof.
  apply (aiter_stops_at_empty_line 4 (fst gap_open) (snd gap_open) gap_file
           [["a"%byte]] ["b"%byte] gap_open_readable).
  - vm_compute. discriminate.
  - repeat constructor; [discriminate|].
    apply find_absent_inv. reflexivity.
  - reflexivity.
  - vm_compute. lia.
Defined.

Lemma cleanup_twice_raises_witness :
  ∃ u1,
    cleanup (setup (Uring_init 32)) = Ret tt u1 ∧
    _setup_done u1 = false ∧
    queue_exits u1 = S (queue_exits (setup (Uring_init 32))) ∧
    cleanup u1 = Exc (OSError 9) u1 ∧
    (ring (_get_sqe u1) = RingLive ∧
     atexit_hooks (_get_sqe u1) = S (atexit_hooks (setup (Uring_init 32)))).
Proof. apply (cleanup_twice_raises (setup (Uring_init 32))). reflexivity. Defined.

(** ** The correlation invariant *)
















(** Two reads completed out of order resolve each with its own bytes, in
    one callback. *)
Example two_reads_resolve_own :
  valid two_reads (Uring_init 32) ∧
  heap (run two_reads (Uring_init 32))
    = [Done (VBytes ["a"%byte; "a"%byte]); Done (VBytes ["b"%byte; "b"%byte])] ∧
  store (run two_reads (Uring_init 32)) = ∅ ∧
  cq (run two_reads (Uring_init 32)) = [].
Proof.
  split; [|by vm_compute].
  simpl. repeat split; try done; set_solver.
Qed.

Lemma hello_world_lines_witness :
  ∃ w1 w2 w3 w4,
    readline 8 (fst hello_open) (snd hello_open)
      = Ok (list_byte_of_string "hello", set_offset 6 (fst hello_open)) w1 ∧
    readline 8 (set_offset 6 (fst hello_open)) w1
      = Ok (list_byte_of_string "world", set_offset 11 (fst hello_open)) w2 ∧
    readline 8 (set_offset 11 (fst hello_open)) w2
      = Ok ([], set_offset 11 (fst hello_open)) w3 ∧
    aiter 8 (fst hello_open) (snd hello_open)
      = ([list_byte_of_string "hello"; list_byte_of_string "world"],
         Ok (set_offset 11 (fst hello_open)) w4).
Proof.
  destruct hello_world_lines as [H _].
  apply (H (fst hello_open) (snd hello_open) 8%nat hello_open_readable);
    [reflexivity|lia].
Defined.

Lemma close_resets_handle_witness :
  ∃ w',
    close (fst hello_open) (snd hello_open)
      = Ok {| fpath := fpath (fst hello_open); _fd := None; _offset := 0 |} w' ∧
    fdtable w' = delete 3 (fdtable (snd hello_open)) ∧
    submits (uring w') = S (submits (uring (snd hello_open))).
Proof.
  destruct (close_resets_handle (fst hello_open) (snd hello_open))
    as (_ & _ & H).
  apply (H 3 ("/hello.txt", O_RDONLY)); [reflexivity|by split|].
  vm_compute. reflexivity.
Defined.

(** * Further properties of the ring handle *)




(** X5: lazy setup runs once: along every run of submissions, completions
    and callbacks on a ring handle just created, the ring is initialised
    at most once and one exit hook is registered with it, however many
    operations are submitted; and every operation submitted went to a
    ring that is set up and live. *)
Theorem setup_runs_once qs evs :
  let u := run evs (Uring_init qs) in
  (queue_inits u ≤ 1)%nat ∧ atexit_hooks u = queue_inits u ∧
  queue_exits u = 0%nat ∧
  (_setup_done u = true ↔ queue_inits u = 1%nat) ∧
  (_setup_done u = true ↔ ring u = RingLive) ∧
  ((0 < submits u)%nat → _setup_done u = true).
Proof.
  set (inv := λ u : Uring,
    (queue_inits u ≤ 1)%nat ∧ atexit_hooks u = queue_inits u ∧
    queue_exits u = 0%nat ∧
    (_setup_done u = true ↔ queue_inits u = 1%nat) ∧
    (_setup_done u = true ↔ ring u = RingLive) ∧
    ((0 < submits u)%nat → _setup_done u = true)).
  assert (Hget : ∀ u, inv u → inv (_get_sqe u) ∧ _setup_done (_get_sqe u) = true).
  { intros u Hi. pose proof Hi as (H1 & H2 & H3 & H4 & H5 & H6).
    unfold _get_sqe.
    destruct (_setup_done u) eqn:Hd; [by split|].
    assert (queue_inits u = 0%nat).
    { destruct H4 as [_ H4]. destruct (queue_inits u) as [|[|n]]; [done| |lia].
      by specialize (H4 eq_refl). }
    split; [|done]. unfold inv. simpl. rewrite H2, H3.
    repeat split; try done; lia. }
  assert (Hsub : ∀ rt op args fid u, inv u → _setup_done u = true →
            inv (snd (_submit rt op args fid u))).
  { intros rt op args fid u (H1 & H2 & H3 & [H4 H4'] & [H5 H5'] & H6) Hd.
    unfold inv. simpl. repeat split; auto. }
  assert (Hsame : ∀ u u', inv u →
            queue_inits u' = queue_inits u → atexit_hooks u' = atexit_hooks u →
            queue_exits u' = queue_exits u → _setup_done u' = _setup_done u →
            ring u' = ring u → submits u' = submits u → inv u').
  { intros u u' Hi E1 E2 E3 E4 E5 E6. unfold inv.
    by rewrite E1, E2, E3, E4, E5, E6. }
  assert (Hdisp : ∀ c u,
    match dispatch c u with
    | Ret _ u' | Exc _ u' =>
        queue_inits u' = queue_inits u ∧ atexit_hooks u' = atexit_hooks u ∧
        queue_exits u' = queue_exits u ∧ _setup_done u' = _setup_done u ∧
        ring u' = ring u ∧ submits u' = submits u
    end).
  { intros c u. unfold dispatch, trap_error. destruct (res c <? 0); simpl; [done|].
    destruct (store u !! user_data c) as [e|]; [|done].
    unfold set_result.
    destruct (e_type e); try destruct (e_args e) as [|a rest]; try done;
      by destruct (heap u !! e_future e) as [[|?]|]. }
  assert (Hdrain : ∀ q u,
    match drain q u with
    | Ret _ u' | Exc _ u' =>
        queue_inits u' = queue_inits u ∧ atexit_hooks u' = atexit_hooks u ∧
        queue_exits u' = queue_exits u ∧ _setup_done u' = _setup_done u ∧
        ring u' = ring u ∧ submits u' = submits u
    end).
  { induction q as [|c q IH]; intros u; simpl; [done|].
    pose proof (Hdisp c u) as Hd.
    destruct (dispatch c u) as [[] u1|e u1]; simpl; [|done].
    specialize (IH u1). destruct Hd as (E1 & E2 & E3 & E4 & E5 & E6).
    destruct (drain q u1); destruct IH as (? & ? & ? & ? & ? & ?);
      repeat split; congruence. }
  assert (Hstep : ∀ ev u, inv u → inv (step ev u)).
  { intros ev u Hi.
    destruct ev as [path flags mode dir_fd fid|fd fid|fd size offset fid
                   |fd data offset fid|s r payload|]; simpl.
    - destruct (Hget u Hi). by apply Hsub.
    - destruct (Hget u Hi). by apply Hsub.
    - unfold submit_read_entry. destruct (Hget u Hi) as [Hg Hd].
      destruct (size <? 0); [done|].
      specialize (Hsub READ
                    (PrepReadv fd (length (repeat x00 (Z.to_nat size))) offset)
                    [repeat x00 (Z.to_nat size)] fid (_get_sqe u) Hg Hd).
      by destruct (_submit READ _ _ fid (_get_sqe u)).
    - destruct (Hget u Hi). by apply Hsub.
    - by apply (Hsame u).
    - unfold eventfd_callback. pose proof (Hdrain (cq u) u) as Hd.
      destruct (drain (cq u) u); destruct Hd as (? & ? & ? & ? & ? & ?);
        by apply (Hsame u).
  }
  assert (Hrun : ∀ evs u, inv u → inv (run evs u)).
  { clear evs. induction evs as [|ev evs IH]; intros u Hi; [done|].
    simpl. apply IH. by apply Hstep. }
  intros u. apply Hrun. unfold inv. simpl. repeat split; try done; lia.
Qed.

(** * Further properties of the file handle *)

(** ** A failed operation *)

Lemma kernel_run_ring l : ∀ w,
  heap (uring (kernel_run l w)) = heap (uring w) ∧
  ∃ posted, cq (uring (kernel_run l w)) = cq (uring w) ++ posted.
Proof.
  induction l as [|s l IH]; intros w; simpl.
  - split; [done|]. exists []. by rewrite app_nil_r.
  - destruct (kernel_exec (sq_op s) (fs w) (fdtable w)) as [[[r payload] files] t].
    destruct (IH {| uring := kernel_complete s r payload (uring w);
                    fs := files; fdtable := t |}) as (Hh & posted & Hq).
    split; [by rewrite Hh|]. eexists. rewrite Hq. simpl.
    by rewrite <- app_assoc.
Qed.

Lemma wedged_callback u :
  wedged u → ∃ e, eventfd_callback u = Exc e u.
Proof.
  intros (c & q & Hcq & Hres). unfold eventfd_callback. rewrite Hcq. simpl.
  rewrite dispatch_negative by done. by eexists.
Qed.

(** A task that awaits a pending future never resumes once the head of
    the completion queue, after the kernel has worked off what is in
    flight, is a failed completion. *)
Lemma await_blocked fut w :
  heap (uring w) !! fut = Some Pending →
  wedged (uring (kernel_run (inflight (uring w)) w)) →
  ∃ w', await fut w = Hang w' ∧ wedged (uring w') ∧
        heap (uring w') !! fut = Some Pending ∧
        fs w' = fs (kernel_run (inflight (uring w)) w) ∧
        fdtable w' = fdtable (kernel_run (inflight (uring w)) w).
Proof.
  intros Hp Hw. unfold await. rewrite Hp. unfold wake.
  destruct (inflight (uring w)) as [|s l] eqn:Hi.
  - simpl in Hw. rewrite Hp. by exists w.
  - set (w1 := kernel_run (s :: l) w) in *.
    destruct (kernel_run_ring (s :: l) w) as (Hh & _). fold w1 in Hh.
    destruct (wedged_callback _ Hw) as (e & ->). simpl.
    rewrite Hh, Hp. exists (set_uring (uring w1) w1). simpl.
    by rewrite Hh.
Qed.

Lemma wedged_stays l w :
  wedged (uring w) → wedged (uring (kernel_run l w)).
Proof.
  intros (c & q & Hcq & Hres).
  destruct (kernel_run_ring l w) as (_ & posted & Hq).
  exists c, (q ++ posted). by rewrite Hq, Hcq.
Qed.

Lemma submit_blocked rt op args fid u files t :
  wedged u →
  let '(fut, u1) := _submit rt op args fid u in
  ∃ w', await fut {| uring := u1; fs := files; fdtable := t |} = Hang w' ∧
        wedged (uring w').
Proof.
  intros (c & q & Hcq & Hres). simpl.
  destruct (await_blocked (length (heap u))
    {| uring := snd (_submit rt op args fid u); fs := files; fdtable := t |})
    as (w' & Haw & Hw & _).
  - simpl. apply heap_fresh_pending.
  - apply wedged_stays. exists c, q. by simpl.
  - by exists w'.
Qed.

Lemma wedged_get_sqe u : wedged u → wedged (_get_sqe u).
Proof.
  destruct (_get_sqe_fields u) as (_ & _ & _ & Hc & _).
  unfold wedged. by rewrite Hc.
Qed.

(** X6: once a completion with a negative result code is at the head of the
    queue, the ring handle is of no use any more: every [open], [close]
    and [write], and every [read] that has bytes to read, submits its
    operation and never resumes. *)
Theorem failed_completion_blocks_handle f w :
  wedged (uring w) →
  (∀ flags mode dir_fd, _fd f = None →
     ∃ w', File_open flags mode dir_fd f w = Hang w') ∧
  (is_Some (_fd f) → ∃ w', close f w = Hang w') ∧
  (∀ data, is_Some (_fd f) → ∃ w', write data f w = Hang w') ∧
  (∀ size c, is_Some (_fd f) → fs w !! fpath f = Some c →
     0 < Z.min (default (Z.of_nat (length c)) size)
               (Z.of_nat (length c) - _offset f) →
     ∃ w', read size f w = Hang w').
Proof.
  intros Hw. apply wedged_get_sqe in Hw. repeat split.
  - intros flags mode dir_fd Hfd. unfold File_open, submit_open_entry.
    rewrite Hfd.
    pose proof (submit_blocked OPEN (PrepOpenat dir_fd (fpath f) flags mode)
                  [list_byte_of_string (fpath f)] (new_id (uring w))
                  (_get_sqe (uring w)) (fs w) (fdtable w) Hw) as Hb.
    destruct (_submit OPEN _ _ _ (_get_sqe (uring w))) as [fut u1].
    destruct Hb as (w' & Haw & _). unfold set_uring. rewrite Haw.
    by exists w'.
  - intros [fd Hfd]. unfold close, submit_close_entry. rewrite Hfd.
    pose proof (submit_blocked CLOSE (PrepClose fd) [] (new_id (uring w))
                  (_get_sqe (uring w)) (fs w) (fdtable w) Hw) as Hb.
    destruct (_submit CLOSE _ _ _ (_get_sqe (uring w))) as [fut u1].
    destruct Hb as (w' & Haw & _). unfold set_uring. rewrite Haw.
    by exists w'.
  - intros data [fd Hfd]. unfold write, submit_write_entry. rewrite Hfd.
    pose proof (submit_blocked WRITE (PrepWritev fd data (_offset f)) []
                  (new_id (uring w)) (_get_sqe (uring w)) (fs w) (fdtable w)
                  Hw) as Hb.
    destruct (_submit WRITE _ _ _ (_get_sqe (uring w))) as [fut u1].
    destruct Hb as (w' & Haw & _). unfold set_uring. rewrite Haw.
    by exists w'.
  - intros size c [fd Hfd] Hfs Hn. unfold read. rewrite Hfd, Hfs.
    replace (match size with Some n0 => n0 | None => Z.of_nat (length c) end)
      with (default (Z.of_nat (length c)) size) by by destruct size.
    set (n := Z.min _ _) in *.
    destruct (Z.leb_spec n 0) as [?|_]; [lia|].
    unfold submit_read_entry. destruct (Z.ltb_spec n 0) as [?|_]; [lia|].
    pose proof (submit_blocked READ
                  (PrepReadv fd (length (repeat x00 (Z.to_nat n))) (_offset f))
                  [repeat x00 (Z.to_nat n)]
                  (new_id (uring w)) (_get_sqe (uring w)) (fs w) (fdtable w)
                  Hw) as Hb.
    destruct (_submit READ _ _ _ (_get_sqe (uring w))) as [fut u1].
    destruct Hb as (w' & Haw & _). unfold set_uring. rewrite Haw.
    by exists w'.
Qed.

(** X7: [open] of a path with no file, without [O_CREAT]: the kernel fails
    the operation with ENOENT, the callback raises into the event loop,
    and the task that awaits the open never resumes; no exception
    reaches it, and the ring is left with the failed completion at the
    head of its queue. *)
Theorem open_missing_never_returns flags mode dir_fd f w :
  quiet (uring w) → _fd f = None → fs w !! fpath f = None →
  Z.land flags O_CREAT = 0 →
  ∃ w',
    File_open flags mode dir_fd f w = Hang w' ∧
    wedged (uring w') ∧ fs w' = fs w ∧ fdtable w' = fdtable w.
Proof.
  intros Hq Hfd Hfs Hcreat. unfold File_open, submit_open_entry. rewrite Hfd.
  apply quiet_get_sqe in Hq as [Hi Hc].
  set (u := _get_sqe (uring w)) in *.
  destruct (_submit OPEN _ _ _ u) as [fut u1] eqn:Hsub.
  unfold _submit in Hsub. injection Hsub as <- <-.
  unfold set_uring. simpl.
  match goal with |- context [await _ ?w0] => set (w1 := w0) end.
  assert (Hrun : kernel_run (inflight (uring w1)) w1
    = {| uring := kernel_complete
           {| sq_op := PrepOpenat dir_fd (fpath f) flags mode;
              sq_user_data := new_id (uring w) |} (-2) [] (uring w1);
         fs := fs w; fdtable := fdtable w |}).
  { unfold w1. simpl. rewrite Hi. simpl. rewrite Hfs, Hcreat. done. }
  destruct (await_blocked (length (heap u)) w1) as (w' & Haw & Hw & _ & Hfs' & Ht').
  - simpl. apply heap_fresh_pending.
  - rewrite Hrun. simpl. rewrite Hc. simpl. eexists _, _. split; [done|]. simpl. lia.
  - rewrite Haw. exists w'. rewrite Hrun in Hfs', Ht'. by repeat split.
Qed.

(** ** Opening, writing and reading back *)

(** [open] of a path that has a file, not truncating it: the handle gets
    the descriptor the kernel hands out, keeps its path and offset, and
    the file is as it was. *)
Lemma open_existing flags mode dir_fd f w c :
  quiet (uring w) → _fd f = None → fs w !! fpath f = Some c →
  Z.land flags O_TRUNC = 0 →
  ∃ w',
    File_open flags mode dir_fd f w
      = Ok (set_fd (Some (free_fd (fdtable w))) f) w' ∧
    quiet (uring w') ∧ fs w' = fs w ∧
    fdtable w' = <[free_fd (fdtable w) := (fpath f, flags)]> (fdtable w) ∧
    submits (uring w') = S (submits (uring w)).
Proof.
  intros Hq Hfd Hfs Htrunc. unfold File_open, submit_open_entry. rewrite Hfd.
  assert (Hk : kernel_exec (PrepOpenat dir_fd (fpath f) flags mode)
                 (fs w) (fdtable w)
               = (free_fd (fdtable w), [], fs w,
                  <[free_fd (fdtable w) := (fpath f, flags)]> (fdtable w))).
  { simpl. rewrite Hfs, Htrunc. done. }
  assert (Hfree : 0 ≤ free_fd (fdtable w)).
  { unfold free_fd. generalize (size (fdtable w)).
    assert (∀ n fd, 0 ≤ fd → 0 ≤ free_fd_from n fd (fdtable w)) as Hge.
    { induction n as [|n IH]; intros fd Hfd0; simpl; [done|].
      destruct (fdtable w !! fd); [apply IH; lia|done]. }
    intros n. by apply Hge. }
  pose proof (await_submit OPEN _ [list_byte_of_string (fpath f)]
                (new_id (uring w)) (_get_sqe (uring w)) _ _ _ _ _ _
                (quiet_get_sqe _ Hq) (λ H, ltac:(done)) Hk Hfree) as AW.
  destruct (_submit OPEN _ _ _ (_get_sqe (uring w))) as [fut u1].
  destruct AW as (u3 & Haw & Hq3 & _ & Hsub).
  unfold set_uring. rewrite Haw. simpl.
  eexists. split; [done|]. repeat split; try done; try apply Hq3.
  simpl. rewrite Hsub.
  by destruct (_get_sqe_fields (uring w)) as (_ & _ & _ & _ & ->).
Qed.

(** X8: opening a file for reading and reading it without a size returns
    the whole content and leaves the cursor at the end of the file. *)
Theorem open_read_returns_content path mode dir_fd w c :
  quiet (uring w) → fs w !! path = Some c →
  ∃ f w1 w2,
    open path O_RDONLY mode dir_fd w = Ok f w1 ∧
    fpath f = path ∧ _offset f = 0 ∧ readable f w1 c ∧
    read None f w1 = Ok (c, set_offset (Z.of_nat (length c)) f) w2.
Proof.
  intros Hq Hfs.
  destruct (open_existing O_RDONLY mode dir_fd (File_init path) w c Hq)
    as (w1 & Hopen & Hq1 & Hfs1 & Ht1 & _); [done|done|done|].
  set (f := set_fd (Some (free_fd (fdtable w))) (File_init path)) in *.
  assert (Hr : readable f w1 c).
  { split; [done|]. split; [by rewrite Hfs1|].
    exists (free_fd (fdtable w)), O_RDONLY.
    split; [done|]. split; [|done]. rewrite Ht1. apply lookup_insert_eq. }
  destruct (decide (length c = 0)%nat) as [Hz|Hnz].
  - exists f, w1, w1. do 4 (split; [done|]).
    rewrite (read_short_circuit None f w1 (free_fd (fdtable w)) c);
      [|done|by rewrite Hfs1|simpl; lia].
    apply nil_length_inv in Hz. by subst c.
  - destruct (read_submits None f w1 c Hr) as (w2 & Hread & _); [done|simpl; lia|].
    exists f, w1, w2. do 4 (split; [done|]). rewrite Hread. simpl.
    rewrite Z.sub_0_r, Z.min_id, Nat2Z.id, take_ge by done. done.
Qed.







(** ** Scoped open *)

Lemma close_open_descriptor f w fd x :
  _fd f = Some fd → quiet (uring w) → fdtable w !! fd = Some x →
  ∃ w',
    close f w = Ok {| fpath := fpath f; _fd := None; _offset := 0 |} w' ∧
    quiet (uring w') ∧ fs w' = fs w ∧
    fdtable w' = delete fd (fdtable w).
Proof.
  intros Hfd Hq Ht. unfold close, submit_close_entry. rewrite Hfd.
  assert (Hk : kernel_exec (PrepClose fd) (fs w) (fdtable w)
               = (0, [], fs w, delete fd (fdtable w))).
  { simpl. by rewrite Ht. }
  pose proof (await_submit CLOSE _ [] (new_id (uring w))
                (_get_sqe (uring w)) _ _ _ _ _ _
                (quiet_get_sqe _ Hq) (λ H, ltac:(done)) Hk ltac:(lia)) as AW.
  destruct (_submit CLOSE _ [] _ (_get_sqe (uring w))) as [fut u1].
  destruct AW as (u3 & Haw & Hq3 & _).
  unfold set_uring. rewrite Haw. simpl. eexists.
  split; [done|]. split; [exact Hq3|]. by split.
Qed.

(** X11: the scoped open closes the handle on every way out of the block:
    when the block returns or raises with the descriptor still open on a
    quiet ring, the descriptor is closed and the result or the exception
    of the block goes on; when the block has closed the handle itself,
    leaving the block raises [AssertionError] instead; a block that
    never ends is never closed. *)
Theorem async_with_closes {A} path flags mode dir_fd
    (body : File → World → block_end A) w f0 w0 :
  open path flags mode dir_fd w = Ok f0 w0 →
  match body f0 w0 with
  | Returned a f w1 =>
      (_fd f = None →
       async_with path flags mode dir_fd body w = Raise AssertionError w1) ∧
      (∀ fd x, _fd f = Some fd → quiet (uring w1) →
         fdtable w1 !! fd = Some x →
         ∃ w2, async_with path flags mode dir_fd body w = Ok a w2 ∧
               fdtable w2 = delete fd (fdtable w1) ∧ fs w2 = fs w1)
  | Raised e f w1 =>
      (_fd f = None →
       async_with path flags mode dir_fd body w = Raise AssertionError w1) ∧
      (∀ fd x, _fd f = Some fd → quiet (uring w1) →
         fdtable w1 !! fd = Some x →
         ∃ w2, async_with path flags mode dir_fd body w = Raise e w2 ∧
               fdtable w2 = delete fd (fdtable w1) ∧ fs w2 = fs w1)
  | Suspended w1 => async_with path flags mode dir_fd body w = Hang w1
  end.
Proof.
  intros Hopen. unfold async_with. rewrite Hopen. simpl.
  destruct (body f0 w0) as [a f w1|e f w1|w1]; simpl; [| |done].
  - split.
    + intros Hfd. unfold close. by rewrite Hfd.
    + intros fd x Hfd Hq Ht.
      destruct (close_open_descriptor f w1 fd x Hfd Hq Ht)
        as (w2 & -> & _ & Hfs & Ht2).
      by exists w2.
  - split.
    + intros Hfd. unfold close. by rewrite Hfd.
    + intros fd x Hfd Hq Ht.
      destruct (close_open_descriptor f w1 fd x Hfd Hq Ht)
        as (w2 & -> & _ & Hfs & Ht2).
      by exists w2.
Qed.

(** ** What [read], [readline] and iteration always do *)

Lemma read_ok_offset size f w data f1 w1 :
  read size f w = Ok (data, f1) w1 →
  f1 = set_offset (_offset f + Z.of_nat (length data)) f.
Proof.
  unfold read. destruct (_fd f) as [fd|] eqn:Hfd; [|done].
  destruct (fs w !! fpath f) as [c|]; [|done].
  destruct (_ <=? 0).
  { intros [= <- <- <-]. simpl. by rewrite Z.add_0_r, set_offset_same. }
  destruct (submit_read_entry _ _ _ _ _) as [fut u|]; [|done].
  destruct (await fut _) as [v w'| | |]; simpl; try done.
  destruct v; try done. by intros [= <- <- <-].
Qed.

Lemma find_take_absent b l :
  0 ≤ find b l → b ∉ take (Z.to_nat (find b l)) l.
Proof.
  induction l as [|x l IH]; simpl; [lia|].
  destruct (Byte.eqb x b) eqn:E; [intros _; apply not_elem_of_nil|].
  apply Byte.eqb_false in E.
  destruct (Z.eqb_spec (find b l) (-1)) as [?|Hne]; [lia|]. intros _.
  pose proof (find_bounds b l).
  replace (Z.to_nat (find b l + 1)) with (S (Z.to_nat (find b l))) by lia.
  simpl. apply not_elem_of_cons. split; [done|]. apply IH. lia.
Qed.

(** The loop of [readline] extends the line by bytes that hold no
    newline and moves the cursor by their number, plus one when a
    newline ended the line. *)
Lemma readline_loop_accounts fuel : ∀ line f w r f' w',
  readline_loop fuel line f w = Ok (r, f') w' →
  ∃ s, r = line ++ s ∧ (x0a ∉ s) ∧
       (_offset f' = _offset f + Z.of_nat (length s) ∨
        _offset f' = _offset f + Z.of_nat (length s) + 1).
Proof.
  induction fuel as [|fuel IH]; intros line f w r f' w'; [done|].
  destruct (read (Some 32) f w) as [[chunk f1] w1| | |] eqn:Hread;
    try (simpl; rewrite Hread; done).
  pose proof (read_ok_offset _ _ _ _ _ _ Hread) as Hf1.
  assert (Hoff1 : _offset f1 = _offset f + Z.of_nat (length chunk))
    by by rewrite Hf1.
  destruct (decide (chunk = [])) as [->|Hne].
  { simpl. rewrite Hread. simpl. intros [= <- <- <-]. exists [].
    rewrite app_nil_r. split; [done|]. split; [apply not_elem_of_nil|].
    by left. }
  rewrite (readline_loop_step _ _ _ _ _ _ _ Hread Hne).
  pose proof (find_bounds x0a chunk) as Hb.
  destruct (Z.eqb_spec (find x0a chunk) (-1)) as [Hnone|Hsome]; simpl.
  - intros Hl. apply IH in Hl as (s & -> & Hs & Hoff).
    exists (chunk ++ s). rewrite app_assoc. split; [done|].
    split.
    + apply not_elem_of_app. split; [by apply find_absent_inv|done].
    + rewrite length_app. lia.
  - intros [= <- <- <-].
    exists (take (Z.to_nat (find x0a chunk)) chunk). split; [done|].
    split; [apply find_take_absent; lia|].
    right. simpl. rewrite length_take. lia.
Qed.

(** X12: whenever [readline] returns, the line holds no newline, and the
    cursor has moved forward by the length of the line, or by one more
    for the newline that ended it; path and descriptor are as before. *)
Theorem readline_accounts_for_cursor fuel f w line f' w' :
  readline fuel f w = Ok (line, f') w' →
  (x0a ∉ line) ∧ fpath f' = fpath f ∧ _fd f' = _fd f ∧
  (_offset f' = _offset f + Z.of_nat (length line) ∨
   _offset f' = _offset f + Z.of_nat (length line) + 1).
Proof.
  intros Hrl. pose proof Hrl as (Hp & Hd & _)%readline_loop_handle.
  apply readline_loop_accounts in Hrl as (s & -> & Hs & Hoff).
  by repeat split.
Qed.

(** X13: every line the iteration yields has at least one byte and holds no
    newline, whatever the file and the state of the ring. *)
Theorem aiter_yields_proper_lines fuel : ∀ f w,
  Forall proper_line (fst (aiter fuel f w)).
Proof.
  induction fuel as [|fuel IH]; intros f w; [by constructor|].
  change (aiter (S fuel) f w) with
    (match readline (S fuel) f w with
     | Ok (line, f) w =>
         match line with
         | [] => ([], Ok f w)
         | _ => let '(ls, o) := aiter fuel f w in (line :: ls, o)
         end
     | Raise e w => ([], Raise e w)
     | Hang w => ([], Hang w)
     | OutOfFuel => ([], OutOfFuel)
     end).
  destruct (readline (S fuel) f w) as [[line f1] w1| | |] eqn:Hrl;
    try by constructor.
  apply readline_loop_accounts in Hrl as (s & -> & Hs & _). simpl.
  destruct s as [|x s]; [by constructor|].
  specialize (IH f1 w1). destruct (aiter fuel f1 w1) as [ls o]. simpl.
  constructor; [by split|done].
Qed.

(** The whole of an iteration: the lines [ls] under the cursor, each
    with at least one byte and its newline, then the bytes [tl] to the
    end of the file, with no newline among them. *)
Lemma aiter_whole fuel f w c ls tl :
  readable f w c → 0 ≤ _offset f → Forall proper_line ls →
  drop (Z.to_nat (_offset f)) c = lines_bytes ls ++ tl → x0a ∉ tl →
  (length (lines_bytes ls) + length ls + length tl + 1 < fuel)%nat →
  ∃ w',
    aiter fuel f w
      = (ls ++ match tl with [] => [] | _ => [tl] end,
         Ok (set_offset
               (_offset f + Z.of_nat (length (lines_bytes ls ++ tl))) f) w') ∧
    readable f w' c.
Proof.
  intros Hr Hoff Hls Hdrop Htl Hfuel.
  destruct (aiter_lines ls fuel f w c tl Hr Hoff Hls Hdrop)
    as (w1 & Hr1 & Hit); [lia|].
  set (f1 := set_offset (_offset f + Z.of_nat (length (lines_bytes ls))) f) in *.
  destruct (aiter_last (fuel - length ls) f1 w1 c tl Hr1)
    as (w2 & Hend & Hr2); [simpl; lia| |done|lia|].
  { simpl. replace (Z.to_nat (_offset f + Z.of_nat (length (lines_bytes ls))))
      with (Z.to_nat (_offset f) + length (lines_bytes ls))%nat by lia.
    rewrite <- drop_drop, Hdrop. by rewrite drop_app_length. }
  exists w2. split; [|exact Hr2]. rewrite Hit, Hend.
  simpl. rewrite length_app.
  by replace (_offset f + Z.of_nat (length (lines_bytes ls)) + Z.of_nat (length tl))
    with (_offset f + Z.of_nat (length (lines_bytes ls) + length tl)) by lia.
Qed.

(** X14: iteration over a file whose lines all have at least one byte yields
    every line, in order, without its newline, the last line also when
    no newline ends it, and stops with the cursor at the end of the
    file. *)
Theorem aiter_yields_all_lines fuel f w c ls tl :
  readable f w c → 0 ≤ _offset f → Forall proper_line ls →
  drop (Z.to_nat (_offset f)) c = lines_bytes ls ++ tl → x0a ∉ tl →
  (length (lines_bytes ls) + length ls + length tl + 1 < fuel)%nat →
  ∃ w',
    aiter fuel f w
      = (ls ++ match tl with [] => [] | _ => [tl] end,
         Ok (set_offset
               (_offset f + Z.of_nat (length (lines_bytes ls ++ tl))) f) w').
Proof.
  intros Hr Hoff Hls Hdrop Htl Hfuel.
  destruct (aiter_whole fuel f w c ls tl Hr Hoff Hls Hdrop Htl Hfuel)
    as (w' & Hit & _).
  by exists w'.
Qed.

(** X15: iteration is not restartable by itself: once it has ended at the end
    of the file, iterating again yields nothing; after [seek] back to
    where it began, it yields the same lines again. *)
Theorem iteration_restarts_after_seek fuel f w c ls tl :
  readable f w c → 0 ≤ _offset f → Forall proper_line ls →
  drop (Z.to_nat (_offset f)) c = lines_bytes ls ++ tl → x0a ∉ tl →
  (length (lines_bytes ls) + length ls + length tl + 1 < fuel)%nat →
  ∃ lines f1 w1 w2 w3,
    aiter fuel f w = (lines, Ok f1 w1) ∧
    aiter fuel f1 w1 = ([], Ok f1 w2) ∧
    aiter fuel (seek (_offset f) f1) w2 = (lines, Ok f1 w3).
Proof.
  intros Hr Hoff Hls Hdrop Htl Hfuel.
  destruct (aiter_whole fuel f w c ls tl Hr Hoff Hls Hdrop Htl Hfuel)
    as (w1 & Hit & Hr1).
  set (f1 := set_offset (_offset f + Z.of_nat (length (lines_bytes ls ++ tl))) f)
    in *.
  assert (Hend : drop (Z.to_nat (_offset f1)) c = []).
  { simpl. replace (Z.to_nat (_offset f + Z.of_nat (length (lines_bytes ls ++ tl))))
      with (Z.to_nat (_offset f) + length (lines_bytes ls ++ tl))%nat by lia.
    rewrite <- drop_drop, Hdrop. by apply drop_all. }
  destruct (aiter_last fuel f1 w1 c [] Hr1) as (w2 & Hit2 & Hr2);
    [simpl; lia|done|apply not_elem_of_nil|simpl; lia|].
  simpl in Hit2. rewrite Z.add_0_r in Hit2.
  destruct (aiter_whole fuel (seek (_offset f) f1) w2 c ls tl)
    as (w3 & Hit3 & _); try done.
  exists (ls ++ match tl with [] => [] | _ => [tl] end), f1, w1, w2, w3.
  split; [exact Hit|]. split; [exact Hit2|]. exact Hit3.
Qed.

Lemma kernel_exec_readv fd len off files t :
  ∃ r payload,
    kernel_exec (PrepReadv fd len off) files t = (r, payload, files, t).
Proof.
  simpl. destruct (t !! fd) as [[path flags]|]; [|by eexists _, _].
  destruct (_ =? O_WRONLY); [by eexists _, _|].
  destruct (off <? 0); [by eexists _, _|].
  destruct (files !! path); by eexists _, _.
Qed.

(** An operation submitted on a quiet ring that the kernel fails: the
    task that awaits it never resumes. *)
Lemma await_submit_fails rt op args fid u files t r payload files' t' :
  quiet u →
  kernel_exec op files t = (r, payload, files', t') → r < 0 →
  let '(fut, u1) := _submit rt op args fid u in
  ∃ w', await fut {| uring := u1; fs := files; fdtable := t |} = Hang w'.
Proof.
  intros [Hi Hc] Hk Hr. simpl.
  destruct (await_blocked (length (heap u))
    {| uring := snd (_submit rt op args fid u); fs := files; fdtable := t |})
    as (w' & Haw & _).
  - simpl. apply heap_fresh_pending.
  - simpl. rewrite Hi. simpl. rewrite Hk. simpl. rewrite Hc. simpl.
    by eexists _, _.
  - by exists w'.
Qed.

(** X16: whenever [read] returns on a quiet ring, it returns exactly the
    number of bytes it settled on, [min(size, fsize - offset)] or none
    when that is not positive, whatever number the kernel reported; the
    cursor has advanced by that number, the files and descriptors are
    as they were, and the ring is quiet again. *)
Theorem read_returns_settled_size size f w data f' w' :
  quiet (uring w) → read size f w = Ok (data, f') w' →
  ∃ c,
    fs w !! fpath f = Some c ∧
    Z.of_nat (length data)
      = Z.max 0 (Z.min (default (Z.of_nat (length c)) size)
                       (Z.of_nat (length c) - _offset f)) ∧
    f' = set_offset (_offset f + Z.of_nat (length data)) f ∧
    quiet (uring w') ∧ fs w' = fs w ∧ fdtable w' = fdtable w.
Proof.
  intros Hq Hread. pose proof (read_ok_offset _ _ _ _ _ _ Hread) as Hf'.
  unfold read in Hread. destruct (_fd f) as [fd|] eqn:Hfd; [|done].
  destruct (fs w !! fpath f) as [c|] eqn:Hfs; [|done].
  exists c. split; [done|].
  replace (match size with Some n0 => n0 | None => Z.of_nat (length c) end)
    with (default (Z.of_nat (length c)) size) in Hread by by destruct size.
  set (n := Z.min _ _) in *.
  destruct (Z.leb_spec n 0) as [Hn|Hn].
  { injection Hread as <- <- <-. simpl. repeat split; try done; try apply Hq.
    lia. }
  unfold submit_read_entry in Hread.
  destruct (Z.ltb_spec n 0) as [?|_]; [lia|].
  set (array := repeat x00 (Z.to_nat n)) in *.
  destruct (kernel_exec_readv fd (length array) (_offset f) (fs w) (fdtable w))
    as (r & payload & Hk).
  destruct (decide (r < 0)) as [Hneg|Hpos].
  - pose proof (await_submit_fails READ _ [array] (new_id (uring w))
                  (_get_sqe (uring w)) _ _ _ _ _ _
                  (quiet_get_sqe _ Hq) Hk Hneg) as AW.
    destruct (_submit READ _ [array] _ (_get_sqe (uring w))) as [fut u1].
    destruct AW as (w1 & Haw). unfold set_uring in Hread.
    by rewrite Haw in Hread.
  - pose proof (await_submit READ _ [array] (new_id (uring w))
                  (_get_sqe (uring w)) _ _ _ _ _ _
                  (quiet_get_sqe _ Hq) (λ _, ltac:(done)) Hk ltac:(lia)) as AW.
    destruct (_submit READ _ [array] _ (_get_sqe (uring w))) as [fut u1].
    destruct AW as (u3 & Haw & Hq3 & _). unfold set_uring in Hread.
    rewrite Haw in Hread. simpl in Hread. injection Hread as <- _ <-.
    simpl. rewrite length_write_buffer in *. unfold array at 1.
    rewrite repeat_length. split; [lia|]. split; [|by split].
    exact Hf'.
Qed.


(** ** The further properties at concrete inputs *)


Lemma two_reads_valid : valid two_reads (Uring_init 32).
Proof. simpl. repeat split; try done; set_solver. Qed.






Lemma failed_completion_blocks_handle_witness :
  let w := snd two_opens in
  ∃ w', File_open O_RDONLY 432 (-1) (File_init "/present") w = Hang w'.
Proof.
  destruct (failed_completion_blocks_handle (File_init "/present")
              (snd two_opens)) as (H & _).
  - exists {| user_data := 100; res := -2 |},
           [{| user_data := 200; res := 3 |}].
    split; [vm_compute; reflexivity|simpl; lia].
  - apply (H O_RDONLY 432 (-1)). reflexivity.
Defined.

Lemma open_missing_never_returns_witness :
  ∃ w',
    File_open O_RDONLY 432 (-1) (File_init "/missing")
      (world_with "/present" []) = Hang w' ∧
    wedged (uring w') ∧ fs w' = fs (world_with "/present" []) ∧
    fdtable w' = fdtable (world_with "/present" []).
Proof.
  apply (open_missing_never_returns O_RDONLY 432 (-1) (File_init "/missing")
           (world_with "/present" [])).
  - split; reflexivity.
  - reflexivity.
  - vm_compute. reflexivity.
  - reflexivity.
Defined.

Lemma open_read_returns_content_witness :
  ∃ f w1 w2,
    open "/hello.txt" O_RDONLY 432 (-1) (world_with "/hello.txt" hello_world)
      = Ok f w1 ∧
    fpath f = "/hello.txt" ∧ _offset f = 0 ∧ readable f w1 hello_world ∧
    read None f w1
      = Ok (hello_world, set_offset (Z.of_nat (length hello_world)) f) w2.
Proof.
  apply (open_read_returns_content "/hello.txt" 432 (-1)
           (world_with "/hello.txt" hello_world) hello_world).
  - split; reflexivity.
  - vm_compute. reflexivity.
Defined.



Lemma async_with_closes_witness :
  ∃ w2,
    async_with "/hello.txt" O_RDONLY 432 (-1) empty_block
      (world_with "/hello.txt" hello_world) = Ok tt w2 ∧
    fdtable w2 = delete 3 (fdtable (snd hello_open)) ∧
    fs w2 = fs (snd hello_open).
Proof.
  pose proof (async_with_closes "/hello.txt" O_RDONLY 432 (-1) empty_block
                (world_with "/hello.txt" hello_world)
                (fst hello_open) (snd hello_open)) as H.
  destruct H as [_ H]; [vm_compute; reflexivity|].
  apply (H 3 ("/hello.txt", O_RDONLY)).
  - reflexivity.
  - split; reflexivity.
  - vm_compute. reflexivity.
Defined.

Lemma readline_accounts_for_cursor_witness :
  (x0a ∉ list_byte_of_string "hello") ∧
  fpath (set_offset 6 (fst hello_open)) = fpath (fst hello_open) ∧
  _fd (set_offset 6 (fst hello_open)) = _fd (fst hello_open) ∧
  (_offset (set_offset 6 (fst hello_open))
     = _offset (fst hello_open)
       + Z.of_nat (length (list_byte_of_string "hello")) ∨
   _offset (set_offset 6 (fst hello_open))
     = _offset (fst hello_open)
       + Z.of_nat (length (list_byte_of_string "hello")) + 1).
Proof.
  destruct (readline_loop_newline 1 [] (fst hello_open) (snd hello_open)
              hello_world (list_byte_of_string "hello")
              (list_byte_of_string "world") hello_open_readable)
    as (w' & Hrl & _).
  - vm_compute. discriminate.
  - reflexivity.
  - apply find_absent_inv. reflexivity.
  - vm_compute. lia.
  - apply (readline_accounts_for_cursor 1 (fst hello_open) (snd hello_open)
             (list_byte_of_string "hello") (set_offset 6 (fst hello_open)) w').
    exact Hrl.
Defined.

Lemma aiter_yields_all_lines_witness :
  ∃ w',
    aiter 14 (fst hello_open) (snd hello_open)
      = ([list_byte_of_string "hello"] ++ [list_byte_of_string "world"],
         Ok (set_offset
               (_offset (fst hello_open)
                + Z.of_nat (length (lines_bytes [list_byte_of_string "hello"]
                                     ++ list_byte_of_string "world")))
               (fst hello_open)) w').
Proof.
  apply (aiter_yields_all_lines 14 (fst hello_open) (snd hello_open)
           hello_world [list_byte_of_string "hello"]
           (list_byte_of_string "world") hello_open_readable).
  - vm_compute. discriminate.
  - repeat constructor; [discriminate|]. apply find_absent_inv. reflexivity.
  - reflexivity.
  - apply find_absent_inv. reflexivity.
  - vm_compute. lia.
Defined.

Lemma iteration_restarts_after_seek_witness :
  ∃ lines f1 w1 w2 w3,
    aiter 14 (fst hello_open) (snd hello_open) = (lines, Ok f1 w1) ∧
    aiter 14 f1 w1 = ([], Ok f1 w2) ∧
    aiter 14 (seek (_offset (fst hello_open)) f1) w2 = (lines, Ok f1 w3).
Proof.
  apply (iteration_restarts_after_seek 14 (fst hello_open) (snd hello_open)
           hello_world [list_byte_of_string "hello"]
           (list_byte_of_string "world") hello_open_readable).
  - vm_compute. discriminate.
  - repeat constructor; [discriminate|]. apply find_absent_inv. reflexivity.
  - reflexivity.
  - apply find_absent_inv. reflexivity.
  - vm_compute. lia.
Defined.

Lemma read_returns_settled_size_witness :
  ∃ data f' w',
    read (Some 3) (fst hello_open) (snd hello_open) = Ok (data, f') w' ∧
    ∃ c,
      fs (snd hello_open) !! fpath (fst hello_open) = Some c ∧
      Z.of_nat (length data)
        = Z.max 0 (Z.min (default (Z.of_nat (length c)) (Some 3))
                         (Z.of_nat (length c) - _offset (fst hello_open))) ∧
      f' = set_offset (_offset (fst hello_open) + Z.of_nat (length data))
             (fst hello_open) ∧
      quiet (uring w') ∧ fs w' = fs (snd hello_open) ∧
      fdtable w' = fdtable (snd hello_open).
Proof.
  destruct (read_submits (Some 3) (fst hello_open) (snd hello_open)
              hello_world hello_open_readable) as (w' & Hread & _).
  - vm_compute. discriminate.
  - vm_compute. reflexivity.
  - eexists _, _, w'. split; [exact Hread|].
    apply (read_returns_settled_size (Some 3) (fst hello_open)
             (snd hello_open) _ _ w'); [split; reflexivity|exact Hread].
Defined.




